(** * Shallow embedding of createSpeechRecognitionPonyfill (web-speech-cognitive-services)

    The file [SpeechServices/.../SpeechSynthesisUtterance.js] of the source tree
    carries, after the synthesis utterance class, the speech recognition
    ponyfill: a factory that wraps the audio reader of an [AudioConfig], and a
    [SpeechRecognition] class whose [_startOnce] method drains a promise queue
    of session events and re-dispatches them as Web Speech API events.

    Modelling choices:
    - JS strings are [string] (8-bit code units);
    - the asynchronous queue is the finite list of events the loop dequeues;
      when the list is exhausted while the loop still wants an event, the
      loop is suspended ([LPending]);
    - vendor calls that are awaited ([createRecognizer],
      [startContinuousRecognitionAsync], the awaited
      [stopContinuousRecognitionAsync] on abort) either resolve or reject
      with a [failure], as given by a [vendor] record;
    - what the loop does to the outside world is a trace of [effect]s:
      dispatched events and calls to [stopContinuousRecognitionAsync];
    - [this.continuous], [this.interimResults] and [this.maxAlternatives] are
      read from a [config] that stays fixed during the session;
    - offsets, session ids and cancellation reasons carried by vendor events
      are only forwarded to the debugging event and are left out. *)

From Stdlib Require Import List String Ascii Bool ZArith Lia.
Import ListNotations.

Module Recognition.

(** ** Vendor data *)

Record nbest_entry := {
  Confidence : Z;
  Lexical : string;
  ITN : string;
  MaskedITN : string;
  Display : string
}.

(** [ResultReason] of the Speech SDK (the values the code distinguishes). *)
Inductive result_reason :=
| NoMatch
| Canceled
| RecognizingSpeech
| RecognizedSpeech.

(** A serialized recognition result: its reason and the [NBest] list of
    its JSON payload. *)
Record vendor_result := {
  reason : result_reason;
  NBest : list nbest_entry
}.

Inductive text_normalization := TNDisplay | TNITN | TNLexical | TNMaskedITN.

(** ** Normalized results *)

Record alternative := { transcript : string; confidence : Z }.

Record speech_result := { alternatives : list alternative; isFinal : bool }.

Definition select_text (tn : text_normalization) (e : nbest_entry) : string :=
  match tn with
  | TNDisplay => Display e
  | TNITN => ITN e
  | TNLexical => Lexical e
  | TNMaskedITN => MaskedITN e
  end.

(** Modelled from the spec: [cognitiveServiceEventResultToWebSpeechRecognitionResultList],
    imported by the ponyfill but not part of the source tree (spec 4.3). The
    configured rendering of each of the first [maxAlternatives] n-best
    entries, in input order; an empty n-best list yields a single
    empty-transcript alternative; [isFinal] tells a finalized result from an
    interim ([RecognizingSpeech]) one. *)
Definition cognitiveServiceEventResultToWebSpeechRecognitionResultList
  (r : vendor_result) (maxAlternatives : nat) (tn : text_normalization) : speech_result :=
  {| alternatives :=
       match NBest r with
       | [] => [ {| transcript := ""; confidence := 0 |} ]
       | l => map (fun e => {| transcript := select_text tn e; confidence := Confidence e |})
                  (firstn maxAlternatives l)
       end;
     isFinal := match reason r with RecognizingSpeech => false | _ => true end |}.

(** ** Queue events, public events, effects *)

(** One case per key pushed on the queue by [_startOnce]'s callbacks. *)
Inductive qevent :=
| AudioSourceReady
| AudioSourceOff
| FirstAudibleChunk
| CanceledEv (errorDetails : string)
| RecognizedEv (result : vendor_result)
| RecognizingEv (result : vendor_result)
| SessionStarted
| SessionStopped
| SpeechStartDetected
| SpeechEndDetected
| Abort
| Stop.

Inductive error_code := NotAllowed | Network | NoSpeech | Aborted | Unknown.

(** A rejected promise or a thrown exception. *)
Inductive failure :=
| VendorError (message : string)
| TypeErrorReadingTranscript.

Inductive public_event :=
| EvCognitiveServices (e : qevent)
| EvStart
| EvAudioStart
| EvSoundStart
| EvSpeechStart
| EvSpeechEnd
| EvSoundEnd
| EvAudioEnd
| EvResult (results : list speech_result)
| EvError (code : error_code)
| EvFailure (f : failure)
| EvEnd.

Inductive effect :=
| Dispatch (ev : public_event)
| StopContinuousRecognition (awaited : bool).

Inductive final_event :=
| FinalError (code : error_code)
| FinalResult (results : list speech_result).

Record config := {
  continuous : bool;
  interimResults : bool;
  maxAlternatives : nat;
  textNormalization : text_normalization;
  looseEvents : bool
}.

(** Outcome of the awaited vendor calls: [None] resolves, [Some f] rejects. *)
Record vendor := {
  createRecognizer_fails : option failure;
  startContinuous_fails : option failure;
  stopContinuous_fails : option failure
}.

(** ** The regular expressions of the loop *)

(** [\s] of a [u]-flagged JS regular expression, on 8-bit code units. *)
Definition is_js_space (c : ascii) : bool :=
  match nat_of_ascii c with
  | 9 | 10 | 11 | 12 | 13 | 32 | 160 => true
  | _ => false
  end.

Fixpoint drop (n : nat) (s : string) : string :=
  match n, s with
  | 0, _ => s
  | S n', String _ s' => drop n' s'
  | S _, EmptyString => EmptyString
  end.

Definition permission_denied_at (s : string) : bool :=
  prefix "Permission" s &&
  match drop 10 s with
  | String c r => is_js_space c && prefix "denied" r
  | EmptyString => false
  end.

(** [/Permission\sdenied/u.test(s)] *)
Fixpoint permission_denied_test (s : string) : bool :=
  permission_denied_at s ||
  match s with
  | EmptyString => false
  | String _ s' => permission_denied_test s'
  end.

(** [/1006/u.test(s)] *)
Fixpoint network_1006_test (s : string) : bool :=
  prefix "1006" s ||
  match s with
  | EmptyString => false
  | String _ s' => network_1006_test s'
  end.

(** ** Loop state *)

Record loop_state := {
  loop : nat;
  audioStarted : bool;
  soundStarted : bool;
  speechStarted : bool;
  stopping : bool;
  muted : bool;
  finalEvent : option final_event;
  finalizedResults : list speech_result
}.

Definition mk_state l a so sp stp m fe fr : loop_state :=
  {| loop := l; audioStarted := a; soundStarted := so; speechStarted := sp;
     stopping := stp; muted := m; finalEvent := fe; finalizedResults := fr |}.

Definition initial_state : loop_state :=
  mk_state 0 false false false false false None [].

Definition set_finalEvent (fe : option final_event) (st : loop_state) : loop_state :=
  mk_state (loop st) (audioStarted st) (soundStarted st) (speechStarted st)
           (stopping st) (muted st) fe (finalizedResults st).

(** [loop++] at the end of an iteration that did not [break]. *)
Definition next (st : loop_state) : loop_state :=
  mk_state (S (loop st)) (audioStarted st) (soundStarted st) (speechStarted st)
           (stopping st) (muted st) (finalEvent st) (finalizedResults st).

(** ** One iteration of the [for] loop of [_startOnce] *)

Inductive step_result :=
| SContinue (tr : list effect) (st : loop_state)
| SBreak (tr : list effect) (st : loop_state)
| SFail (tr : list effect) (f : failure).

(** The "Unconfirmed prevention of quirks" backfill of the
    [recognized || recognizing] branch. *)
Definition backfill (st : loop_state) : list effect * loop_state :=
  ((if audioStarted st then [] else [Dispatch EvAudioStart]) ++
   (if soundStarted st then [] else [Dispatch EvSoundStart]) ++
   (if speechStarted st then [] else [Dispatch EvSpeechStart]),
   mk_state (loop st) true true true (stopping st) (muted st)
            (finalEvent st) (finalizedResults st)).

(** [new SpeechRecognitionEvent(finalEvent.type, finalEvent)] *)
Definition final_as_event (fe : final_event) : public_event :=
  match fe with
  | FinalError c => EvError c
  | FinalResult rs => EvResult rs
  end.

Definition normalize (cfg : config) (r : vendor_result) : speech_result :=
  cognitiveServiceEventResultToWebSpeechRecognitionResultList
    r (maxAlternatives cfg) (textNormalization cfg).

(** The [if (recognized) ... else if (recognizing) ...] tail of the
    recognition branch, run after the backfill. *)
Definition recognition_tail (cfg : config) (st : loop_state) (e : qevent)
  : step_result :=
  match e with
  | RecognizedEv r =>
      let result := normalize cfg r in
      match alternatives result with
      | [] => SFail [] TypeErrorReadingTranscript   (* result[0].transcript *)
      | top :: _ =>
          let recognizable := negb (String.eqb (transcript top) "") in
          let fr := if recognizable then finalizedResults st ++ [result]
                    else finalizedResults st in
          let tr_cont := if recognizable && continuous cfg
                         then [Dispatch (EvResult fr)] else [] in
          let fe := if continuous cfg && recognizable then None
                    else Some (FinalResult fr) in
          let tr_stop := if continuous cfg then []
                         else [StopContinuousRecognition false] in
          let '(tr_loose, fe') :=
            match fe with
            | Some f => if looseEvents cfg && recognizable
                        then ([Dispatch (final_as_event f)], None)
                        else ([], fe)
            | None => ([], fe)
            end in
          SContinue (tr_cont ++ tr_stop ++ tr_loose)
            (next (mk_state (loop st) (audioStarted st) (soundStarted st)
                     (speechStarted st) (stopping st) (muted st) fe' fr))
      end
  | RecognizingEv r =>
      SContinue
        (if interimResults cfg
         then [Dispatch (EvResult (finalizedResults st ++ [normalize cfg r]))]
         else [])
        (next st)
  | _ => SContinue [] (next st)
  end.

Definition prepend_step (tr : list effect) (r : step_result) : step_result :=
  match r with
  | SContinue tr' st => SContinue (tr ++ tr') st
  | SBreak tr' st => SBreak (tr ++ tr') st
  | SFail tr' f => SFail (tr ++ tr') f
  end.

Definition step (cfg : config) (vd : vendor) (st : loop_state) (e : qevent)
  : step_result :=
  let tr0 := [Dispatch (EvCognitiveServices e)] in
  let errorMessage := match e with CanceledEv d => d | _ => EmptyString end in
  if permission_denied_test errorMessage then
    SBreak tr0 (set_finalEvent (Some (FinalError NotAllowed)) st)
  else
  let tr1 := tr0 ++ (if Nat.eqb (loop st) 0 then [Dispatch EvStart] else []) in
  if negb (String.eqb errorMessage "") then
    if network_1006_test errorMessage then
      SBreak (tr1 ++ (if audioStarted st then []
                      else [Dispatch EvAudioStart; Dispatch EvAudioEnd]))
             (set_finalEvent (Some (FinalError Network)) st)
    else
      SBreak tr1 (set_finalEvent (Some (FinalError Unknown)) st)
  else
  match e with
  | Abort =>
      let st' := mk_state (loop st) (audioStarted st) (soundStarted st)
                   (speechStarted st) true (muted st)
                   (Some (FinalError Aborted)) (finalizedResults st) in
      let tr2 := tr1 ++ [StopContinuousRecognition true] in
      match stopContinuous_fails vd with
      | Some f => SFail tr2 f
      | None => SContinue tr2 (next st')
      end
  | Stop =>
      SContinue tr1
        (next (mk_state (loop st) (audioStarted st) (soundStarted st)
                 (speechStarted st) true true (finalEvent st) (finalizedResults st)))
  | AudioSourceReady =>
      SContinue (tr1 ++ [Dispatch EvAudioStart])
        (next (mk_state (loop st) true (soundStarted st) (speechStarted st)
                 (stopping st) (muted st) (finalEvent st) (finalizedResults st)))
  | FirstAudibleChunk =>
      SContinue (tr1 ++ [Dispatch EvSoundStart])
        (next (mk_state (loop st) (audioStarted st) true (speechStarted st)
                 (stopping st) (muted st) (finalEvent st) (finalizedResults st)))
  | AudioSourceOff =>
      SBreak (tr1 ++ (if speechStarted st then [Dispatch EvSpeechEnd] else [])
                  ++ (if soundStarted st then [Dispatch EvSoundEnd] else [])
                  ++ (if audioStarted st then [Dispatch EvAudioEnd] else []))
        (mk_state (loop st) false false false true (muted st)
                  (finalEvent st) (finalizedResults st))
  | RecognizedEv r =>
      match reason r with
      | NoMatch => SContinue tr1 (next (set_finalEvent (Some (FinalError NoSpeech)) st))
      | _ =>
          let '(trb, stb) := backfill st in
          prepend_step (tr1 ++ trb) (recognition_tail cfg stb e)
      end
  | RecognizingEv _ =>
      let '(trb, stb) := backfill st in
      prepend_step (tr1 ++ trb) (recognition_tail cfg stb e)
  | _ => SContinue tr1 (next st)
  end.

(** ** The loop and the exit sequence *)

Inductive loop_outcome :=
| LExit (tr : list effect) (st : loop_state) (rest : list qevent)
| LPending (tr : list effect) (st : loop_state)
| LFail (tr : list effect) (f : failure).

Definition prepend_loop (tr : list effect) (o : loop_outcome) : loop_outcome :=
  match o with
  | LExit tr' st rest => LExit (tr ++ tr') st rest
  | LPending tr' st => LPending (tr ++ tr') st
  | LFail tr' f => LFail (tr ++ tr') f
  end.

(** [for (let loop = 0; !stopping || audioStarted; loop++) { ... await queue.shift() ... }] *)
Fixpoint run_loop (cfg : config) (vd : vendor) (st : loop_state) (evs : list qevent)
  : loop_outcome :=
  if negb (stopping st) || audioStarted st then
    match evs with
    | [] => LPending [] st
    | e :: rest =>
        match step cfg vd st e with
        | SContinue tr st' => prepend_loop tr (run_loop cfg vd st' rest)
        | SBreak tr st' => LExit tr st' rest
        | SFail tr f => LFail tr f
        end
    end
  else LExit [] st evs.

(** Promotion of an empty [result] final event to [no-speech]. *)
Definition promote (fe : final_event) : final_event :=
  match fe with
  | FinalResult [] => FinalError NoSpeech
  | _ => fe
  end.

(** Everything after the loop: the pending [...end] events, the final
    event and the unconditional [end]. *)
Definition exit_effects (st : loop_state) : list effect :=
  (if speechStarted st then [Dispatch EvSpeechEnd] else []) ++
  (if soundStarted st then [Dispatch EvSoundEnd] else []) ++
  (if audioStarted st then [Dispatch EvAudioEnd] else []) ++
  match finalEvent st with
  | Some fe => [Dispatch (final_as_event (promote fe))]
  | None => []
  end ++
  [Dispatch EvEnd].

Inductive session_outcome :=
| Completed (tr : list effect) (rest : list qevent)
| Waiting (tr : list effect)
| Rejected (tr : list effect) (f : failure).

(** [async _startOnce()]; [evs] is what [queue.shift()] delivers. *)
Definition _startOnce (cfg : config) (vd : vendor) (evs : list qevent) : session_outcome :=
  match createRecognizer_fails vd with
  | Some f => Rejected [] f
  | None =>
      match startContinuous_fails vd with
      | Some f => Rejected [] f
      | None =>
          match run_loop cfg vd initial_state evs with
          | LExit tr st rest => Completed (tr ++ exit_effects st) rest
          | LPending tr _ => Waiting tr
          | LFail tr f => Rejected tr f
          end
      end
  end.

(** [start() { this._startOnce().catch(err => this.dispatchEvent(new ErrorEvent('error', ...))); }]:
    the effects observed by the caller; [start] itself returns normally. *)
Definition start (cfg : config) (vd : vendor) (evs : list qevent) : list effect :=
  match _startOnce cfg vd evs with
  | Completed tr _ => tr
  | Waiting tr => tr
  | Rejected tr f => tr ++ [Dispatch (EvFailure f)]
  end.

(** The dispatched events of a trace. *)
Fixpoint dispatched (tr : list effect) : list public_event :=
  match tr with
  | [] => []
  | Dispatch ev :: tr' => ev :: dispatched tr'
  | _ :: tr' => dispatched tr'
  end.

(** Whether [result[0].transcript] is non-empty for a recognized event;
    [false] where the code would throw instead. *)
Definition recognizable (cfg : config) (r : vendor_result) : bool :=
  match alternatives (normalize cfg r) with
  | top :: _ => negb (String.eqb (transcript top) "")
  | [] => false
  end.

Definition count_ev (p : public_event -> bool) (tr : list effect) : nat :=
  List.length (filter p (dispatched tr)).

Definition is_start ev := match ev with EvStart => true | _ => false end.
Definition is_end ev := match ev with EvEnd => true | _ => false end.
Definition is_result ev := match ev with EvResult _ => true | _ => false end.
Definition is_failure ev := match ev with EvFailure _ => true | _ => false end.
Definition is_audiostart ev := match ev with EvAudioStart => true | _ => false end.
Definition is_soundstart ev := match ev with EvSoundStart => true | _ => false end.

(** States reached by iterations that do not leave the loop. *)
Inductive reaches (cfg : config) (vd : vendor) : loop_state -> list qevent -> loop_state -> Prop :=
| reaches_nil st : reaches cfg vd st [] st
| reaches_cons st e evs tr st1 st2 :
    step cfg vd st e = SContinue tr st1 ->
    reaches cfg vd st1 evs st2 ->
    reaches cfg vd st (e :: evs) st2.

(** The staged final event of a session that recognized nothing. *)
Definition no_speech_pending (st : loop_state) : Prop :=
  finalEvent st = Some (FinalResult []) \/ finalEvent st = Some (FinalError NoSpeech).

Definition not_recognizable_event (cfg : config) (e : qevent) : Prop :=
  forall r', e = RecognizedEv r' -> recognizable cfg r' = false.

Definition keeps_final_event (e : qevent) : Prop :=
  e <> Abort /\ forall d, e = CanceledEv d -> d = EmptyString.

End Recognition.

(** * The audio reader wrapper installed on [audioConfig.attach] *)

Module Audio.

Local Open Scope Z_scope.

Record chunk := { buffer : list Byte.byte; isEnd : bool; timeReceived : Z }.

(** A little-endian signed 16-bit sample. *)
Definition int16_of (lo hi : Byte.byte) : Z :=
  let u := Z.of_N (Byte.to_N lo) + 256 * Z.of_N (Byte.to_N hi) in
  if 32768 <=? u then u - 65536 else u.

(** [new Int16Array(arrayBuffer)]: [None] is the [RangeError] thrown when
    the byte length is not a multiple of 2. *)
Fixpoint int16_view (bs : list Byte.byte) : option (list Z) :=
  match bs with
  | [] => Some []
  | [_] => None
  | lo :: hi :: rest => option_map (cons (int16_of lo hi)) (int16_view rest)
  end.

(** [averageAmplitude]: the sum of [Math.abs] over the samples and their
    number, the quotient being the JS division. *)
Definition averageAmplitude (bs : list Byte.byte) : option (Z * Z) :=
  option_map (fun a => (fold_left (fun acc x => acc + Z.abs x) a 0, Z.of_nat (List.length a)))
             (int16_view bs).

(** [sum / n > k]: [0 / 0] is [NaN], which compares false; for
    [n < 2^45] the rounded double quotient compares as the exact one. *)
Definition amplitude_gt (avg : Z * Z) (k : Z) : bool :=
  let '(sum, n) := avg in (0 <? n) && (k * n <? sum).

(** The closure state shared by the factory, the reader and [_startOnce]:
    whether [onAudibleChunk] is set, the [muted] flag and the events pushed
    on the session queue. *)
Record monitor := {
  onAudibleChunk_armed : bool;
  muted : bool;
  queue : list Recognition.qevent
}.

(** [onAudibleChunk = () => { queue.push({ firstAudibleChunk: {} }); onAudibleChunk = null; }] *)
Definition fire_onAudibleChunk (m : monitor) : monitor :=
  if onAudibleChunk_armed m
  then {| onAudibleChunk_armed := false; muted := muted m;
          queue := queue m ++ [Recognition.FirstAudibleChunk] |}
  else m.

(** The improviser of [reader.read]: [None] when it throws. *)
Definition read_improviser (now : Z) (m : monitor) (c : chunk) : option (monitor * chunk) :=
  match averageAmplitude (buffer c) with
  | None => None
  | Some avg =>
      let m1 := if amplitude_gt avg 150 then fire_onAudibleChunk m else m in
      if muted m1
      then Some (m1, {| buffer := []; isEnd := true; timeReceived := now |})
      else Some (m1, c)
  end.

End Audio.

(** * The guard at the top of the factory *)

Module Factory.

Local Open Scope string_scope.

Inductive jsval :=
| JUndefined
| JNull
| JBool (b : bool)
| JNumber (z : Z)
| JString (s : string)
| JObject
| JFunction.

Definition truthy (v : jsval) : bool :=
  match v with
  | JUndefined | JNull => false
  | JBool b => b
  | JNumber z => negb (z =? 0)%Z
  | JString s => negb (String.eqb s "")
  | JObject | JFunction => true
  end.

Record media_devices := { getUserMedia : jsval }.

(** [window.navigator.mediaDevices], [None] when undefined. *)
Record window_t := { mediaDevices : option media_devices }.

Inductive factory_outcome :=
| Throws (error : string)
| Returns (warnings : list string) (exports : list string).

Definition warn_credentials : string :=
  "web-speech-cognitive-services: Either authorizationToken or subscriptionKey must be specified".
Definition warn_webrtc : string :=
  "web-speech-cognitive-services: This browser does not support WebRTC and it will not work with Cognitive Services Speech Services.".
Definition dq : string := String (ascii_of_nat 34) EmptyString.
Definition warn_looseEvent : string :=
  "web-speech-cognitive-services: The option " ++ dq ++ "looseEvent" ++ dq ++
  " should be named as " ++ dq ++ "looseEvents" ++ dq ++ ".".

(** The default export, up to the returned object's keys; [window] is the
    global [window], [None] when it is not defined. *)
Definition createSpeechRecognitionPonyfill (window : option window_t)
  (authorizationToken subscriptionKey looseEvent : jsval) : factory_outcome :=
  if negb (truthy authorizationToken) && negb (truthy subscriptionKey) then
    Returns [warn_credentials] []
  else
    match window with
    | None => Throws "ReferenceError: window is not defined"
    | Some w =>
        match mediaDevices w with
        | None => Returns [warn_webrtc] []
        | Some md =>
            if negb (truthy (getUserMedia md)) then Returns [warn_webrtc] []
            else Returns (match looseEvent with JUndefined => [] | _ => [warn_looseEvent] end)
                         ["SpeechGrammarList"; "SpeechRecognition"; "SpeechRecognitionEvent"]
        end
    end.

End Factory.

(** * Event predicates used by the further properties *)

Module RecognitionMore.

Import Recognition.

Definition is_audioend ev := match ev with EvAudioEnd => true | _ => false end.
Definition is_soundend ev := match ev with EvSoundEnd => true | _ => false end.
Definition is_speechstart ev := match ev with EvSpeechStart => true | _ => false end.
Definition is_speechend ev := match ev with EvSpeechEnd => true | _ => false end.
Definition is_error ev := match ev with EvError _ => true | _ => false end.
Definition is_pending_end ev :=
  match ev with EvSpeechEnd | EvSoundEnd | EvAudioEnd => true | _ => false end.

Definition flag (b : bool) : nat := if b then 1 else 0.

(** Successive reads through the wrapped reader (each [reader.read()] call
    runs the improviser once); [None] when one of them throws. *)
Fixpoint read_many (now : Z) (m : Audio.monitor) (cs : list Audio.chunk)
  : option (Audio.monitor * list Audio.chunk) :=
  match cs with
  | [] => Some (m, [])
  | c :: cs' =>
      match Audio.read_improviser now m c with
      | None => None
      | Some (m1, out) =>
          match read_many now m1 cs' with
          | None => None
          | Some (m2, outs) => Some (m2, out :: outs)
          end
      end
  end.

Definition is_first_audible (e : qevent) : bool :=
  match e with FirstAudibleChunk => true | _ => false end.

End RecognitionMore.

(** * The speech synthesis utterance (first class of the file) *)

Module Synthesis.

(** The result of a call: the value it returns or fulfils with, or the
    error it throws or rejects with. *)
Inductive settled (A : Type) :=
| Fulfilled (v : A)
| Rejected (error : string).
Arguments Fulfilled {A} v.
Arguments Rejected {A} error.

(** A promise as the code awaits it: [Some] of how it settles, [None] when
    it has not settled (and the [await] is still waiting). *)
Definition awaited (A : Type) : Type := option (settled A).

Inductive utterance_event := UStart | UEnd | UError (error : string).

(** The instance fields [play] and [stop] use, and the events emitted so
    far; an audio source node is named by a number.
    [arrayBufferPromise] is [None] while undefined ([preload] not called). *)
Record utterance := {
  arrayBufferPromise : option (awaited (list Byte.byte));
  _playingSource : option nat;
  emitted : list utterance_event
}.

Definition emit (ev : utterance_event) (u : utterance) : utterance :=
  {| arrayBufferPromise := arrayBufferPromise u; _playingSource := _playingSource u;
     emitted := emitted u ++ [ev] |}.

Definition set_playingSource (src : option nat) (u : utterance) : utterance :=
  {| arrayBufferPromise := arrayBufferPromise u; _playingSource := src;
     emitted := emitted u |}.

(** [async preload(...)]: stores the [fetchSpeechData] promise and awaits
    it; its rejection is caught, so [preload] resolves once the fetch
    settles, either way, and stays pending while the fetch does. *)
Definition preload (fetched : awaited (list Byte.byte)) (u : utterance)
  : utterance * awaited unit :=
  ({| arrayBufferPromise := Some fetched; _playingSource := _playingSource u;
      emitted := emitted u |},
   match fetched with Some _ => Some (Fulfilled tt) | None => None end).

(** What the audio context does when [play] calls it:
    [createBufferSource()] (synchronous: returns a source or throws),
    [asyncDecodeAudioData] on the awaited array buffer ([None] for the
    argument when [this.arrayBufferPromise] is undefined), and
    [playDecoded]; the last two may never settle (the [statechange]
    listener of [playDecoded] is removed in its [finally], and [ended] may
    not fire). *)
Record audio_context := {
  createBufferSource : settled nat;
  decodeAudioData : option (list Byte.byte) -> awaited nat;
  playDecoded : nat -> nat -> awaited unit
}.

(** [async play(audioContext)]: every failure is caught and emitted as
    [error]; the result is [None] while an awaited promise has not
    settled, with the events emitted up to that [await]. *)
Definition play (ctx : audio_context) (u : utterance) : utterance * awaited unit :=
  let u1 := emit UStart u in
  match createBufferSource ctx with
  | Rejected e => (emit (UError e) u1, Some (Fulfilled tt))
  | Fulfilled source =>
      match arrayBufferPromise u1 with
      | Some None => (u1, None)
      | Some (Some (Rejected e)) => (emit (UError e) u1, Some (Fulfilled tt))
      | abp =>
          let data := match abp with Some (Some (Fulfilled b)) => Some b | _ => None end in
          match decodeAudioData ctx data with
          | None => (u1, None)
          | Some (Rejected e) => (emit (UError e) u1, Some (Fulfilled tt))
          | Some (Fulfilled audioBuffer) =>
              let u2 := set_playingSource (Some source) u1 in
              match playDecoded ctx audioBuffer source with
              | None => (u2, None)
              | Some (Rejected e) => (emit (UError e) u2, Some (Fulfilled tt))
              | Some (Fulfilled _) =>
                  (emit UEnd (set_playingSource None u2), Some (Fulfilled tt))
              end
          end
      end
  end.

(** [stop()]: the source whose [stop()] is called, if any. *)
Definition stop (u : utterance) : option nat := _playingSource u.

End Synthesis.

(** * [fetchVoices]: the request it sends *)

Module Voices.

Local Open Scope string_scope.
Local Open Scope N_scope.

(** A JS string: its UTF-16 code units. *)
Definition js_string : Type := list N.

Definition units_of (s : string) : js_string := map N_of_ascii (list_ascii_of_string s).

Fixpoint string_of_units (s : js_string) : string :=
  match s with
  | [] => EmptyString
  | c :: rest => String (ascii_of_N c) (string_of_units rest)
  end.

Definition ascii_in (c : ascii) (set : string) : bool :=
  let fix go s := match s with
                  | EmptyString => false
                  | String d s' => Ascii.eqb c d || go s'
                  end in go set.

Definition is_alnum (c : ascii) : bool :=
  let n := nat_of_ascii c in
  (Nat.leb 48 n && Nat.leb n 57) || (Nat.leb 65 n && Nat.leb n 90) ||
  (Nat.leb 97 n && Nat.leb n 122).

(** Characters [encodeURIComponent] leaves as they are. *)
Definition uri_unreserved (c : ascii) : bool :=
  is_alnum c || ascii_in c "-_.!~*'()".

(** Characters [encodeURI] leaves as they are besides those. *)
Definition uri_reserved (c : ascii) : bool := ascii_in c ";/?:@&=+$,#".

Definition unreserved_unit (c : N) : bool := N.ltb c 128 && uri_unreserved (ascii_of_N c).
Definition reserved_unit (c : N) : bool := N.ltb c 128 && uri_reserved (ascii_of_N c).

Definition is_high_surrogate (c : N) : bool := N.leb 55296 c && N.leb c 56319.
Definition is_low_surrogate (c : N) : bool := N.leb 56320 c && N.leb c 57343.

Definition hex_digit (d : N) : ascii :=
  match N.to_nat d with
  | 0 => "0" | 1 => "1" | 2 => "2" | 3 => "3" | 4 => "4" | 5 => "5" | 6 => "6" | 7 => "7"
  | 8 => "8" | 9 => "9" | 10 => "A" | 11 => "B" | 12 => "C" | 13 => "D" | 14 => "E"
  | _ => "F"
  end%char%nat.

Definition percent_byte (n : N) : string :=
  String "%" (String (hex_digit (n / 16)) (String (hex_digit (n mod 16)) EmptyString)).

(** The percent-escaped UTF-8 octets of a code point. *)
Definition utf8_escape (cp : N) : string :=
  if N.ltb cp 128 then percent_byte cp
  else if N.ltb cp 2048 then
    percent_byte (192 + cp / 64) ++ percent_byte (128 + cp mod 64)
  else if N.ltb cp 65536 then
    percent_byte (224 + cp / 4096) ++ percent_byte (128 + (cp / 64) mod 64) ++
    percent_byte (128 + cp mod 64)
  else
    percent_byte (240 + cp / 262144) ++ percent_byte (128 + (cp / 4096) mod 64) ++
    percent_byte (128 + (cp / 64) mod 64) ++ percent_byte (128 + cp mod 64).

(** The Encode operation behind [encodeURI] and [encodeURIComponent]:
    code units of the unescaped set are kept, the others are escaped as the
    UTF-8 of their code point (a surrogate pair as one code point); [None]
    is the [URIError] thrown on an unpaired surrogate. *)
Fixpoint encode (unescaped : N -> bool) (s : js_string) : option string :=
  match s with
  | [] => Some EmptyString
  | c :: rest =>
      if unescaped c then option_map (String (ascii_of_N c)) (encode unescaped rest)
      else if is_low_surrogate c then None
      else if is_high_surrogate c then
        match rest with
        | [] => None
        | k :: rest' =>
            if is_low_surrogate k then
              option_map (append (utf8_escape ((c - 55296) * 1024 + (k - 56320) + 65536)))
                         (encode unescaped rest')
            else None
        end
      else option_map (append (utf8_escape c)) (encode unescaped rest)
  end.

Definition encodeURIComponent (s : js_string) : option string := encode unreserved_unit s.

Definition encodeURI (s : js_string) : option string :=
  encode (fun c => unreserved_unit c || reserved_unit c) s.

(** The [fetch] call of [fetchVoices]: URL and headers, or [None] when
    building the URL throws (and no request is sent); [deploymentId] is
    [None] when undefined, and the empty string is falsy as well. *)
Definition voices_request (authorizationToken region : js_string)
  (deploymentId : option js_string) : option (string * list (string * js_string)) :=
  let headers := [("authorization", (units_of "Bearer " ++ authorizationToken)%list);
                  ("content-type", units_of "application/json")] in
  match encodeURI region with
  | None => None
  | Some r =>
      match deploymentId with
      | Some ((_ :: _) as d) =>
          match encodeURIComponent d with
          | None => None
          | Some v =>
              Some ("https://" ++ r ++
                    ".voice.speech.microsoft.com/cognitiveservices/voices/list?deploymentId=" ++ v,
                    headers)
          end
      | _ =>
          Some ("https://" ++ r ++ ".tts.speech.microsoft.com/cognitiveservices/voices/list",
                headers)
      end
  end.

(** Whether a JS string has no unpaired surrogate. *)
Fixpoint well_formed_utf16 (s : js_string) : bool :=
  match s with
  | [] => true
  | c :: rest =>
      if is_low_surrogate c then false
      else if is_high_surrogate c then
        match rest with
        | [] => false
        | k :: rest' => is_low_surrogate k && well_formed_utf16 rest'
        end
      else well_formed_utf16 rest
  end.

Fixpoint string_forall (p : ascii -> bool) (s : string) : bool :=
  match s with
  | EmptyString => true
  | String c s' => p c && string_forall p s'
  end.

(** The characters that can appear in an [encodeURIComponent] result. *)
Definition url_safe (c : ascii) : bool := uri_unreserved c || Ascii.eqb c "%".

End Voices.

(** * Sample inputs *)

Module Samples.

Import Recognition.
Local Open Scope string_scope.

Definition entry (t : string) : nbest_entry :=
  {| Confidence := 1%Z; Lexical := t; ITN := t; MaskedITN := t; Display := t |}.

Definition recognized_hello : vendor_result :=
  {| reason := RecognizedSpeech; NBest := [entry "hello"] |}.
Definition recognizing_x : vendor_result :=
  {| reason := RecognizingSpeech; NBest := [entry "x"] |}.
Definition recognized_empty : vendor_result :=
  {| reason := RecognizedSpeech; NBest := [] |}.
Definition nomatch_hello : vendor_result :=
  {| reason := NoMatch; NBest := [entry "hello"] |}.

Definition hello_result : speech_result :=
  {| alternatives := [ {| transcript := "hello"; confidence := 1%Z |} ]; isFinal := true |}.
Definition x_interim : speech_result :=
  {| alternatives := [ {| transcript := "x"; confidence := 1%Z |} ]; isFinal := false |}.

Definition cfg_single : config :=
  {| continuous := false; interimResults := false; maxAlternatives := 1;
     textNormalization := TNDisplay; looseEvents := false |}.
Definition cfg_single_interim : config :=
  {| continuous := false; interimResults := true; maxAlternatives := 1;
     textNormalization := TNDisplay; looseEvents := false |}.
Definition cfg_continuous : config :=
  {| continuous := true; interimResults := false; maxAlternatives := 1;
     textNormalization := TNDisplay; looseEvents := false |}.

Definition vendor_ok : vendor :=
  {| createRecognizer_fails := None; startContinuous_fails := None;
     stopContinuous_fails := None |}.
Definition token_rejected : failure := VendorError "token rejected".
Definition vendor_token_rejects : vendor :=
  {| createRecognizer_fails := Some token_rejected;
     startContinuous_fails := None; stopContinuous_fails := None |}.

Definition permission_denied : string := "Permission denied".

Definition muted_armed : Audio.monitor :=
  {| Audio.onAudibleChunk_armed := true; Audio.muted := true; Audio.queue := [] |}.

Definition window_without_webrtc : Factory.window_t := {| Factory.mediaDevices := None |}.

(** One byte: not a whole 16-bit sample. *)
Definition odd_chunk : Audio.chunk :=
  {| Audio.buffer := [Byte.x00]; Audio.isEnd := false; Audio.timeReceived := 5%Z |}.

(** One sample of value [0x1000 = 4096]. *)
Definition loud_chunk : Audio.chunk :=
  {| Audio.buffer := [Byte.x00; Byte.x10]; Audio.isEnd := false; Audio.timeReceived := 5%Z |}.

Definition session_quiet_speech : list qevent :=
  [AudioSourceReady; RecognizingEv recognizing_x; FirstAudibleChunk; AudioSourceOff].

Definition session_interim_after_stop : list qevent :=
  [RecognizedEv recognized_hello; RecognizingEv recognizing_x; AudioSourceOff].

Definition session_empty_after_hello : list qevent :=
  [RecognizedEv recognized_hello; RecognizedEv recognized_empty; AudioSourceOff].

Definition session_hello : list qevent :=
  [AudioSourceReady; RecognizedEv recognized_hello; AudioSourceOff].

Definition trace_hello : list effect :=
  [Dispatch (EvCognitiveServices AudioSourceReady); Dispatch EvStart; Dispatch EvAudioStart;
   Dispatch (EvCognitiveServices (RecognizedEv recognized_hello));
   Dispatch EvSoundStart; Dispatch EvSpeechStart; StopContinuousRecognition false;
   Dispatch (EvCognitiveServices AudioSourceOff);
   Dispatch EvSpeechEnd; Dispatch EvSoundEnd; Dispatch EvAudioEnd;
   Dispatch (EvResult [hello_result]); Dispatch EvEnd].

End Samples.

Module MoreSamples.

Import Recognition.
Local Open Scope string_scope.

Definition network_closed : string := "Unable to contact server. StatusCode: 1006, Reason: ".
Definition stop_rejected : failure := VendorError "stop rejected".
Definition vendor_stop_rejects : vendor :=
  {| createRecognizer_fails := None; startContinuous_fails := None;
     stopContinuous_fails := Some stop_rejected |}.
Definition cfg_loose : config :=
  {| continuous := false; interimResults := false; maxAlternatives := 1;
     textNormalization := TNDisplay; looseEvents := true |}.

Definition speech_bytes : list Byte.byte := [Byte.x00; Byte.x10].
Definition playback_error : string := "InvalidStateError".
Definition fetch_error : string := "Failed to fetch speech data".
Definition ctx_playback_fails : Synthesis.audio_context :=
  {| Synthesis.createBufferSource := Synthesis.Fulfilled 1;
     Synthesis.decodeAudioData := fun _ => Some (Synthesis.Fulfilled 2);
     Synthesis.playDecoded := fun _ _ => Some (Synthesis.Rejected playback_error) |}.
(** An audio context whose source never fires [ended]. *)
Definition ctx_playback_hangs : Synthesis.audio_context :=
  {| Synthesis.createBufferSource := Synthesis.Fulfilled 1;
     Synthesis.decodeAudioData := fun _ => Some (Synthesis.Fulfilled 2);
     Synthesis.playDecoded := fun _ _ => None |}.
Definition utterance_loaded : Synthesis.utterance :=
  {| Synthesis.arrayBufferPromise := Some (Some (Synthesis.Fulfilled speech_bytes));
     Synthesis._playingSource := None; Synthesis.emitted := [] |}.
Definition utterance_new : Synthesis.utterance :=
  {| Synthesis.arrayBufferPromise := None; Synthesis._playingSource := None;
     Synthesis.emitted := [] |}.

Definition deployment_with_separators : Voices.js_string := Voices.units_of "a&b=c d".
Definition region_westus : Voices.js_string := Voices.units_of "westus".
Definition token_sample : Voices.js_string := Voices.units_of "token".

Definition armed_unmuted : Audio.monitor :=
  {| Audio.onAudibleChunk_armed := true; Audio.muted := false; Audio.queue := [] |}.
Definition fired_unmuted : Audio.monitor :=
  {| Audio.onAudibleChunk_armed := false; Audio.muted := false;
     Audio.queue := [FirstAudibleChunk] |}.

End MoreSamples.

(** * Proofs *)

Module RecognitionFacts.

Import Recognition.

Ltac break_match :=
  match goal with
  | |- context [match ?x with _ => _ end] =>
      match x with
      | context [match _ with _ => _ end] => fail 1
      | _ => destruct x eqn:?
      end
  end.

Ltac unfold_step :=
  unfold step, recognition_tail, backfill, prepend_step, set_finalEvent, next, mk_state.

Lemma dispatched_app (a b : list effect) :
  dispatched (a ++ b) = dispatched a ++ dispatched b.
Proof.
  induction a as [|x a IH]; [reflexivity|].
  destruct x; simpl; rewrite ?IH; reflexivity.
Qed.

Lemma count_ev_app (p : public_event -> bool) (a b : list effect) :
  count_ev p (a ++ b) = count_ev p a + count_ev p b.
Proof.
  unfold count_ev. rewrite dispatched_app, filter_app, length_app. reflexivity.
Qed.

Lemma step_counts (cfg : config) (vd : vendor) (st : loop_state) (e : qevent) :
  match step cfg vd st e with
  | SContinue tr st' =>
      count_ev is_start tr <= (if Nat.eqb (loop st) 0 then 1 else 0) /\
      count_ev is_end tr = 0 /\ count_ev is_failure tr = 0 /\ loop st' = S (loop st)
  | SBreak tr _ | SFail tr _ =>
      count_ev is_start tr <= (if Nat.eqb (loop st) 0 then 1 else 0) /\
      count_ev is_end tr = 0 /\ count_ev is_failure tr = 0
  end.
Proof.
  unfold_step. repeat (break_match; simpl in *); cbn; repeat split; lia.
Qed.

Lemma run_loop_counts (cfg : config) (vd : vendor) (evs : list qevent) :
  forall st,
  match run_loop cfg vd st evs with
  | LExit tr _ _ | LPending tr _ | LFail tr _ =>
      count_ev is_start tr <= (if Nat.eqb (loop st) 0 then 1 else 0) /\
      count_ev is_end tr = 0 /\ count_ev is_failure tr = 0
  end.
Proof.
  induction evs as [|e evs IH]; intro st; simpl.
  - destruct (negb (stopping st) || audioStarted st); cbn; lia.
  - destruct (negb (stopping st) || audioStarted st); [|cbn; lia].
    pose proof (step_counts cfg vd st e) as Hs.
    destruct (step cfg vd st e) as [tr st'|tr st'|tr f]; [|exact Hs|exact Hs].
    destruct Hs as (H1 & H2 & H3 & Hl).
    specialize (IH st'). rewrite Hl in IH. simpl in IH.
    destruct (run_loop cfg vd st' evs); simpl;
      rewrite !count_ev_app; lia.
Qed.

Lemma exit_effects_shape (st : loop_state) :
  exists mid, exit_effects st = mid ++ [Dispatch EvEnd] /\
    count_ev is_start mid = 0 /\ count_ev is_end mid = 0 /\
    count_ev is_failure mid = 0.
Proof.
  unfold exit_effects.
  eexists. rewrite !app_assoc. split; [reflexivity|].
  rewrite !count_ev_app.
  destruct (speechStarted st), (soundStarted st), (audioStarted st);
    destruct (finalEvent st) as [[c|[|r rs]]|]; cbn; lia.
Qed.

Lemma step_finalized_extends (cfg : config) (vd : vendor) (st : loop_state) (e : qevent)
  (tr : list effect) (st' : loop_state) :
  step cfg vd st e = SContinue tr st' ->
  exists ext, finalizedResults st' = finalizedResults st ++ ext.
Proof.
  unfold_step.
  repeat (break_match; simpl in *); intro H; try discriminate;
    injection H as _ <-; simpl;
    solve [exists []; rewrite app_nil_r; reflexivity | eexists; reflexivity].
Qed.

Lemma reaches_finalized_extends (cfg : config) (vd : vendor) (st1 : loop_state)
  (evs : list qevent) (st2 : loop_state) :
  reaches cfg vd st1 evs st2 ->
  exists ext, finalizedResults st2 = finalizedResults st1 ++ ext.
Proof.
  induction 1 as [st|st e evs tr st1 st2 Hs _ IH].
  - exists []. rewrite app_nil_r. reflexivity.
  - destruct (step_finalized_extends _ _ _ _ _ _ Hs) as [e1 H1].
    destruct IH as [e2 H2]. exists (e1 ++ e2). rewrite H2, H1, app_assoc. reflexivity.
Qed.

Ltac prep_recognized e :=
  match goal with
  | Hr : not_recognizable_event _ e |- _ =>
      destruct e; try (pose proof (Hr _ eq_refl) as Hr'; unfold recognizable in Hr'; revert Hr');
      clear Hr
  end.

Lemma step_nothing_finalized (cfg : config) (vd : vendor) (st : loop_state) (e : qevent) :
  finalizedResults st = [] ->
  not_recognizable_event cfg e ->
  match step cfg vd st e with
  | SContinue tr st' | SBreak tr st' =>
      finalizedResults st' = [] /\ (interimResults cfg = false -> count_ev is_result tr = 0)
  | SFail _ _ => True
  end.
Proof.
  intros Hf Hr. prep_recognized e; revert Hf; unfold_step;
    repeat (break_match; simpl); intros; rewrite ?andb_false_r in *;
    repeat match goal with H : _ && _ = true |- _ => apply andb_prop in H; destruct H end;
    try congruence; try exact I;
    split; intros; try discriminate; try assumption; try reflexivity;
    rewrite ?Hf; reflexivity.
Qed.

Lemma step_keeps_no_speech (cfg : config) (vd : vendor) (st : loop_state) (e : qevent) :
  no_speech_pending st ->
  finalizedResults st = [] ->
  not_recognizable_event cfg e ->
  keeps_final_event e ->
  match step cfg vd st e with
  | SContinue _ st' | SBreak _ st' => no_speech_pending st'
  | SFail _ _ => True
  end.
Proof.
  unfold no_speech_pending, keeps_final_event.
  intros Hp Hf Hr [Ha Hc]. prep_recognized e; try (exfalso; apply Ha; reflexivity);
    try (pose proof (Hc _ eq_refl) as Hd; subst);
    revert Hp Hf; unfold_step; simpl;
    repeat (break_match; simpl); intros; rewrite ?andb_false_r in *;
    repeat match goal with H : _ && _ = true |- _ => apply andb_prop in H; destruct H end;
    try congruence; try exact I;
    rewrite ?Hf; auto.
Qed.

Lemma step_empty_nbest (cfg : config) (vd : vendor) (st : loop_state) (r : vendor_result) :
  NBest r = [] ->
  finalizedResults st = [] ->
  exists tr st', step cfg vd st (RecognizedEv r) = SContinue tr st' /\ no_speech_pending st'.
Proof.
  unfold no_speech_pending. intros Hn Hf.
  unfold_step. cbn -[normalize].
  unfold normalize, cognitiveServiceEventResultToWebSpeechRecognitionResultList.
  rewrite Hn.
  destruct (reason r); cbn; rewrite ?Hf;
    destruct (continuous cfg), (looseEvents cfg); cbn;
    (eexists _, _; split; [reflexivity|]); cbn; auto.
Qed.

Lemma run_loop_no_speech_tail (cfg : config) (vd : vendor) (evs : list qevent) :
  forall st tr st' rest,
  no_speech_pending st ->
  finalizedResults st = [] ->
  Forall (not_recognizable_event cfg) evs ->
  Forall keeps_final_event evs ->
  run_loop cfg vd st evs = LExit tr st' rest ->
  no_speech_pending st' /\ finalizedResults st' = [] /\
  (interimResults cfg = false -> count_ev is_result tr = 0).
Proof.
  induction evs as [|e evs IH]; intros st tr st' rest Hp Hf Hr Hk Hrun; simpl in Hrun.
  - destruct (negb (stopping st) || audioStarted st); try discriminate.
    injection Hrun as <- <- _. auto.
  - destruct (negb (stopping st) || audioStarted st);
      [|injection Hrun as <- <- _; auto].
    inversion Hr as [|? ? Hr1 Hr2]; inversion Hk as [|? ? Hk1 Hk2]; subst.
    pose proof (step_nothing_finalized cfg vd st e Hf Hr1) as Hn.
    pose proof (step_keeps_no_speech cfg vd st e Hp Hf Hr1 Hk1) as Hs.
    destruct (step cfg vd st e) as [tr1 st1|tr1 st1|tr1 f]; try discriminate.
    + destruct Hn as [Hf1 Hi1].
      destruct (run_loop cfg vd st1 evs) as [tr2 st2 rest2| |] eqn:E; try discriminate.
      simpl in Hrun. injection Hrun as <- -> _.
      destruct (IH st1 tr2 st' rest2 Hs Hf1 Hr2 Hk2 E) as (Hp2 & Hf2 & Hi2).
      repeat split; auto. intro Hi. rewrite count_ev_app, Hi1, Hi2 by exact Hi. reflexivity.
    + injection Hrun as <- <- _. destruct Hn. auto.
Qed.

Lemma run_loop_no_speech (cfg : config) (vd : vendor) (r : vendor_result)
  (post : list qevent) (pre : list qevent) :
  forall st tr st',
  NBest r = [] ->
  finalizedResults st = [] ->
  Forall (not_recognizable_event cfg) (pre ++ RecognizedEv r :: post) ->
  Forall keeps_final_event post ->
  run_loop cfg vd st (pre ++ RecognizedEv r :: post) = LExit tr st' [] ->
  no_speech_pending st' /\ finalizedResults st' = [] /\
  (interimResults cfg = false -> count_ev is_result tr = 0).
Proof.
  induction pre as [|e pre IH]; intros st tr st' Hn Hf Hr Hk Hrun; simpl in Hrun, Hr.
  - destruct (negb (stopping st) || audioStarted st); [|discriminate].
    inversion Hr as [|? ? Hr1 Hr2]; subst.
    pose proof (step_nothing_finalized cfg vd st (RecognizedEv r) Hf Hr1) as Hs.
    destruct (step_empty_nbest cfg vd st r Hn Hf) as (tr1 & st1 & Hstep & Hp1).
    rewrite Hstep in Hrun, Hs. destruct Hs as [Hf1 Hi1].
    destruct (run_loop cfg vd st1 post) as [tr2 st2 rest2| |] eqn:E; try discriminate.
    simpl in Hrun. injection Hrun as <- -> ->.
    destruct (run_loop_no_speech_tail cfg vd post st1 tr2 st' [] Hp1 Hf1 Hr2 Hk E)
      as (Hp2 & Hf2 & Hi2).
    repeat split; auto. intro Hi. rewrite count_ev_app, Hi1, Hi2 by exact Hi. reflexivity.
  - destruct (negb (stopping st) || audioStarted st); [|discriminate].
    inversion Hr as [|? ? Hr1 Hr2]; subst.
    pose proof (step_nothing_finalized cfg vd st e Hf Hr1) as Hs.
    destruct (step cfg vd st e) as [tr1 st1|tr1 st1|tr1 f]; try discriminate.
    + destruct Hs as [Hf1 Hi1].
      destruct (run_loop cfg vd st1 (pre ++ RecognizedEv r :: post)) as [tr2 st2 rest2| |] eqn:E;
        try discriminate.
      simpl in Hrun. injection Hrun as <- -> ->.
      destruct (IH st1 tr2 st' Hn Hf1 Hr2 Hk E) as (Hp2 & Hf2 & Hi2).
      repeat split; auto. intro Hi. rewrite count_ev_app, Hi1, Hi2 by exact Hi. reflexivity.
    + injection Hrun as _ _ Habs. destruct pre; discriminate.
Qed.

End RecognitionFacts.

(** * The claims *)

Module Claims.

Import Recognition RecognitionFacts Samples MoreSamples.

(** C1, as stated: when the awaited [stopContinuousRecognitionAsync] of an
    abort rejects, the loop throws and [start()] dispatches the error event
    and no [end]. *)
Lemma abort_stop_rejects_no_end_counterexample :
  count_ev is_end (start cfg_single vendor_stop_rejects [Abort]) = 0 /\
  In (Dispatch (EvFailure stop_rejected)) (start cfg_single vendor_stop_rejects [Abort]).
Proof. split; [reflexivity|simpl; tauto]. Qed.

(** C1, amended: on every queue the loop consumes up to its exit without
    throwing ([_startOnce] completes: the vendor calls succeed and no
    exception escapes the loop), the session dispatches at most one
    [start] and exactly one [end], and [end] is the last thing it does. *)
Theorem start_once_end_last (cfg : config) (vd : vendor) (evs : list qevent)
  (tr : list effect) (rest : list qevent) :
  _startOnce cfg vd evs = Completed tr rest ->
  count_ev is_start tr <= 1 /\ count_ev is_end tr = 1 /\
  exists pre, tr = pre ++ [Dispatch EvEnd] /\ count_ev is_end pre = 0.
Proof.
  unfold _startOnce. intro H.
  destruct (createRecognizer_fails vd); [discriminate|].
  destruct (startContinuous_fails vd); [discriminate|].
  pose proof (run_loop_counts cfg vd evs initial_state) as Hl.
  destruct (run_loop cfg vd initial_state evs) as [tr0 st rest0| |]; try discriminate.
  injection H as <- <-.
  destruct (exit_effects_shape st) as (mid & Hx & Hs & He & _).
  destruct Hl as (Hs0 & He0 & _). simpl in Hs0.
  rewrite Hx, !count_ev_app. cbn.
  split; [lia|]. split; [lia|].
  exists (tr0 ++ mid). split.
  - rewrite app_assoc. reflexivity.
  - rewrite count_ev_app. lia.
Qed.

Lemma start_once_end_last_witness :
  _startOnce cfg_single vendor_ok session_hello = Completed trace_hello [] /\
  (count_ev is_start trace_hello <= 1 /\ count_ev is_end trace_hello = 1 /\
   exists pre, trace_hello = pre ++ [Dispatch EvEnd] /\ count_ev is_end pre = 0).
Proof.
  split; [reflexivity|].
  apply (start_once_end_last cfg_single vendor_ok session_hello trace_hello []).
  reflexivity.
Defined.

(** C8: when [_startOnce] rejects, at setup or in the loop, [start()] returns
    normally and the caller observes the effects made so far followed by a
    single [error] event carrying the failure. *)
Theorem start_catches_failure (cfg : config) (vd : vendor) (evs : list qevent)
  (tr : list effect) (f : failure) :
  _startOnce cfg vd evs = Rejected tr f ->
  start cfg vd evs = tr ++ [Dispatch (EvFailure f)] /\
  count_ev is_failure (start cfg vd evs) = 1.
Proof.
  intro H. unfold start. rewrite H. split; [reflexivity|].
  rewrite count_ev_app. cbn.
  unfold _startOnce in H.
  destruct (createRecognizer_fails vd); [injection H as <- _; reflexivity|].
  destruct (startContinuous_fails vd); [injection H as <- _; reflexivity|].
  pose proof (run_loop_counts cfg vd evs initial_state) as Hl.
  destruct (run_loop cfg vd initial_state evs); try discriminate.
  injection H as <- _. destruct Hl as (_ & _ & Hf). lia.
Qed.

Lemma start_catches_failure_witness :
  _startOnce cfg_single vendor_token_rejects [] = Rejected [] token_rejected /\
  (start cfg_single vendor_token_rejects [] = [] ++ [Dispatch (EvFailure token_rejected)] /\
   count_ev is_failure (start cfg_single vendor_token_rejects []) = 1).
Proof.
  split; [reflexivity|].
  apply (start_catches_failure cfg_single vendor_token_rejects [] [] token_rejected).
  reflexivity.
Defined.

(** C2 (at the failing input): quiet speech is recognized before any chunk
    is loud enough, so [soundstart] is backfilled; the later
    [firstAudibleChunk] dispatches a second [soundstart]. *)
Theorem soundstart_twice :
  count_ev is_soundstart (start cfg_single vendor_ok session_quiet_speech) = 2 /\
  count_ev is_audiostart (start cfg_single vendor_ok session_quiet_speech) = 1.
Proof. split; reflexivity. Qed.

(** C3, as stated: the permission-denied session does not dispatch exactly
    [error] then [end]. *)
Lemma permission_denied_exact_counterexample :
  dispatched (start cfg_single vendor_ok [CanceledEv permission_denied])
    <> [EvError NotAllowed; EvEnd].
Proof. vm_compute. discriminate. Qed.

(** C3, amended: a queue holding only a [canceled] event whose error text
    matches [/Permission\sdenied/u] makes the session dispatch the debugging
    [cognitiveservices] event, then [error] with [not-allowed], then [end];
    no [start]. *)
Theorem permission_denied_session (cfg : config) (vd : vendor) (d : string) :
  createRecognizer_fails vd = None ->
  startContinuous_fails vd = None ->
  permission_denied_test d = true ->
  _startOnce cfg vd [CanceledEv d] =
    Completed [Dispatch (EvCognitiveServices (CanceledEv d));
               Dispatch (EvError NotAllowed); Dispatch EvEnd] [].
Proof.
  intros H1 H2 H3. unfold _startOnce. rewrite H1, H2. cbn.
  unfold step. rewrite H3. reflexivity.
Qed.

Lemma permission_denied_session_witness :
  (createRecognizer_fails vendor_ok = None /\ startContinuous_fails vendor_ok = None /\
   permission_denied_test permission_denied = true) /\
  _startOnce cfg_single vendor_ok [CanceledEv permission_denied] =
    Completed [Dispatch (EvCognitiveServices (CanceledEv permission_denied));
               Dispatch (EvError NotAllowed); Dispatch EvEnd] [].
Proof.
  split; [repeat split; reflexivity|].
  apply permission_denied_session; reflexivity.
Defined.

(** C5, as stated: in single-utterance mode with interim results, a
    [recognizing] event dequeued after the [recognized] one (and after the
    call to [stopContinuousRecognitionAsync]) dispatches a [result] event. *)
Lemma interim_result_after_stop_counterexample :
  start cfg_single_interim vendor_ok session_interim_after_stop =
    [Dispatch (EvCognitiveServices (RecognizedEv recognized_hello));
     Dispatch EvStart; Dispatch EvAudioStart; Dispatch EvSoundStart; Dispatch EvSpeechStart]
    ++ [StopContinuousRecognition false;
        Dispatch (EvCognitiveServices (RecognizingEv recognizing_x));
        Dispatch (EvResult [hello_result; x_interim])]
    ++ [Dispatch (EvCognitiveServices AudioSourceOff);
        Dispatch EvSpeechEnd; Dispatch EvSoundEnd; Dispatch EvAudioEnd;
        Dispatch (EvResult [hello_result]); Dispatch EvEnd].
Proof. reflexivity. Qed.

(** C5, amended: when [continuous] is false, a [recognized] event whose
    reason is not [NoMatch] and whose top transcript is non-empty makes the
    loop call [stopContinuousRecognitionAsync] (without awaiting it) and go
    on; any [recognizing] event the loop dequeues dispatches one interim
    [result] event when [interimResults] is true and none when it is false. *)
Theorem single_mode_stop_and_interim (cfg : config) (vd : vendor) (st : loop_state)
  (r : vendor_result) :
  continuous cfg = false ->
  reason r <> NoMatch ->
  recognizable cfg r = true ->
  (exists tr st', step cfg vd st (RecognizedEv r) = SContinue tr st' /\
                  In (StopContinuousRecognition false) tr) /\
  (forall st1 r1, exists tr1 st1',
      step cfg vd st1 (RecognizingEv r1) = SContinue tr1 st1' /\
      count_ev is_result tr1 = if interimResults cfg then 1 else 0).
Proof.
  intros Hc Hn Hr. split.
  - unfold recognizable in Hr. unfold_step. cbn -[normalize].
    destruct (reason r); try contradiction;
      destruct (alternatives (normalize cfg r)) as [|top tl]; try discriminate;
      rewrite Hr, Hc; simpl;
      destruct (looseEvents cfg); simpl;
      (eexists _, _; split; [reflexivity|]);
      apply in_cons, in_or_app; right; left; reflexivity.
  - intros st1 r1. unfold_step. cbn -[normalize].
    eexists _, _. split; [reflexivity|].
    destruct (Nat.eqb (loop st1) 0), (audioStarted st1), (soundStarted st1),
      (speechStarted st1), (interimResults cfg); reflexivity.
Qed.

Lemma single_mode_stop_and_interim_witness :
  (continuous cfg_single_interim = false /\ reason recognized_hello <> NoMatch /\
   recognizable cfg_single_interim recognized_hello = true) /\
  ((exists tr st', step cfg_single_interim vendor_ok initial_state (RecognizedEv recognized_hello)
                     = SContinue tr st' /\ In (StopContinuousRecognition false) tr) /\
   (forall st1 r1, exists tr1 st1',
      step cfg_single_interim vendor_ok st1 (RecognizingEv r1) = SContinue tr1 st1' /\
      count_ev is_result tr1 = if interimResults cfg_single_interim then 1 else 0)).
Proof.
  split; [split; [reflexivity | split; [discriminate | reflexivity]]|].
  apply single_mode_stop_and_interim; [reflexivity | discriminate | reflexivity].
Defined.

(** C6, as stated: in continuous mode a [recognized] event with a non-empty
    top transcript but the [NoMatch] reason dispatches no [result]. *)
Lemma nomatch_recognizable_counterexample :
  recognizable cfg_continuous nomatch_hello = true /\
  count_ev is_result
    (start cfg_continuous vendor_ok [RecognizedEv nomatch_hello; AudioSourceOff]) = 0.
Proof. split; reflexivity. Qed.

(** C6, amended: in continuous mode, a [recognized] event whose reason is not
    [NoMatch] and whose top transcript is non-empty appends its normalized
    result to [finalizedResults] and dispatches at once a [result] event whose
    payload is the whole [finalizedResults]; along the loop [finalizedResults]
    only grows, so successive such payloads never get shorter. *)
Theorem continuous_result_cumulative (cfg : config) (vd : vendor) (st : loop_state)
  (r : vendor_result) :
  continuous cfg = true ->
  reason r <> NoMatch ->
  recognizable cfg r = true ->
  (exists tr st', step cfg vd st (RecognizedEv r) = SContinue tr st' /\
     finalizedResults st' = finalizedResults st ++ [normalize cfg r] /\
     In (Dispatch (EvResult (finalizedResults st'))) tr) /\
  (forall st1 evs st2, reaches cfg vd st1 evs st2 ->
     (exists ext, finalizedResults st2 = finalizedResults st1 ++ ext) /\
     List.length (finalizedResults st1) <= List.length (finalizedResults st2)).
Proof.
  intros Hc Hn Hr. split.
  - unfold recognizable in Hr. unfold_step. cbn -[normalize].
    destruct (reason r); try contradiction;
      destruct (alternatives (normalize cfg r)) as [|top tl]; try discriminate;
      rewrite Hr, Hc; simpl;
      (eexists _, _; split; [reflexivity|]); simpl;
      (split; [reflexivity|]);
      apply in_cons, in_or_app; right; left; reflexivity.
  - intros st1 evs st2 Hreach.
    destruct (reaches_finalized_extends _ _ _ _ _ Hreach) as [ext Hext].
    split; [exists ext; exact Hext|].
    rewrite Hext, length_app. lia.
Qed.

Lemma continuous_result_cumulative_witness :
  (continuous cfg_continuous = true /\ reason recognized_hello <> NoMatch /\
   recognizable cfg_continuous recognized_hello = true) /\
  ((exists tr st', step cfg_continuous vendor_ok initial_state (RecognizedEv recognized_hello)
                     = SContinue tr st' /\
     finalizedResults st' = finalizedResults initial_state ++ [normalize cfg_continuous recognized_hello] /\
     In (Dispatch (EvResult (finalizedResults st'))) tr) /\
   (forall st1 evs st2, reaches cfg_continuous vendor_ok st1 evs st2 ->
     (exists ext, finalizedResults st2 = finalizedResults st1 ++ ext) /\
     List.length (finalizedResults st1) <= List.length (finalizedResults st2))).
Proof.
  split; [split; [reflexivity | split; [discriminate | reflexivity]]|].
  apply continuous_result_cumulative; [reflexivity | discriminate | reflexivity].
Defined.

(** C4, as stated: a session whose queue holds a [recognized] event with an
    empty n-best list, after a recognizable one, ends with the [result] of
    the earlier recognition and dispatches no [no-speech] error. *)
Lemma empty_nbest_counterexample :
  In (RecognizedEv recognized_empty) session_empty_after_hello /\
  NBest recognized_empty = [] /\
  start cfg_single vendor_ok session_empty_after_hello =
    [Dispatch (EvCognitiveServices (RecognizedEv recognized_hello));
     Dispatch EvStart; Dispatch EvAudioStart; Dispatch EvSoundStart; Dispatch EvSpeechStart;
     StopContinuousRecognition false;
     Dispatch (EvCognitiveServices (RecognizedEv recognized_empty));
     StopContinuousRecognition false;
     Dispatch (EvCognitiveServices AudioSourceOff);
     Dispatch EvSpeechEnd; Dispatch EvSoundEnd; Dispatch EvAudioEnd;
     Dispatch (EvResult [hello_result]); Dispatch EvEnd].
Proof. split; [simpl; tauto|]. split; reflexivity. Qed.

(** C4, amended: if the events the loop consumes until it exits include a
    [recognized] event with an empty n-best list, no consumed [recognized]
    event has a non-empty top transcript, and no [abort] and no [canceled]
    event with an error text follows that event, then the session ends with
    an [error] event carrying [no-speech] just before [end]; and unless
    [interimResults] is set it dispatches no [result] event at all. *)
Theorem empty_nbest_no_speech (cfg : config) (vd : vendor) (pre post : list qevent)
  (r : vendor_result) (tr : list effect) :
  NBest r = [] ->
  Forall (not_recognizable_event cfg) (pre ++ RecognizedEv r :: post) ->
  Forall keeps_final_event post ->
  _startOnce cfg vd (pre ++ RecognizedEv r :: post) = Completed tr [] ->
  (exists tr0, tr = tr0 ++ [Dispatch (EvError NoSpeech); Dispatch EvEnd]) /\
  (interimResults cfg = false -> count_ev is_result tr = 0).
Proof.
  intros Hn Hr Hk H. unfold _startOnce in H.
  destruct (createRecognizer_fails vd); [discriminate|].
  destruct (startContinuous_fails vd); [discriminate|].
  destruct (run_loop cfg vd initial_state (pre ++ RecognizedEv r :: post))
    as [tr0 st rest| |] eqn:E; try discriminate.
  injection H as <- ->.
  destruct (run_loop_no_speech cfg vd r post pre initial_state tr0 st Hn eq_refl Hr Hk E)
    as (Hp & _ & Hi).
  unfold exit_effects.
  split.
  - exists (tr0 ++ (if speechStarted st then [Dispatch EvSpeechEnd] else []) ++
                (if soundStarted st then [Dispatch EvSoundEnd] else []) ++
                (if audioStarted st then [Dispatch EvAudioEnd] else [])).
    destruct Hp as [Hp|Hp]; rewrite Hp; simpl; rewrite <- !app_assoc; reflexivity.
  - intro Hi0. rewrite !count_ev_app, (Hi Hi0).
    destruct Hp as [Hp|Hp]; rewrite Hp;
      destruct (speechStarted st), (soundStarted st), (audioStarted st); reflexivity.
Qed.

Lemma empty_nbest_no_speech_witness :
  (NBest recognized_empty = [] /\
   Forall (not_recognizable_event cfg_single) ([] ++ RecognizedEv recognized_empty :: [AudioSourceOff]) /\
   Forall keeps_final_event [AudioSourceOff] /\
   _startOnce cfg_single vendor_ok ([] ++ RecognizedEv recognized_empty :: [AudioSourceOff]) =
     Completed
       [Dispatch (EvCognitiveServices (RecognizedEv recognized_empty));
        Dispatch EvStart; Dispatch EvAudioStart; Dispatch EvSoundStart; Dispatch EvSpeechStart;
        StopContinuousRecognition false;
        Dispatch (EvCognitiveServices AudioSourceOff);
        Dispatch EvSpeechEnd; Dispatch EvSoundEnd; Dispatch EvAudioEnd;
        Dispatch (EvError NoSpeech); Dispatch EvEnd] []) /\
  ((exists tr0,
      [Dispatch (EvCognitiveServices (RecognizedEv recognized_empty));
       Dispatch EvStart; Dispatch EvAudioStart; Dispatch EvSoundStart; Dispatch EvSpeechStart;
       StopContinuousRecognition false;
       Dispatch (EvCognitiveServices AudioSourceOff);
       Dispatch EvSpeechEnd; Dispatch EvSoundEnd; Dispatch EvAudioEnd;
       Dispatch (EvError NoSpeech); Dispatch EvEnd]
      = tr0 ++ [Dispatch (EvError NoSpeech); Dispatch EvEnd]) /\
   (interimResults cfg_single = false ->
    count_ev is_result
      [Dispatch (EvCognitiveServices (RecognizedEv recognized_empty));
       Dispatch EvStart; Dispatch EvAudioStart; Dispatch EvSoundStart; Dispatch EvSpeechStart;
       StopContinuousRecognition false;
       Dispatch (EvCognitiveServices AudioSourceOff);
       Dispatch EvSpeechEnd; Dispatch EvSoundEnd; Dispatch EvAudioEnd;
       Dispatch (EvError NoSpeech); Dispatch EvEnd] = 0)).
Proof.
  assert (Hr : Forall (not_recognizable_event cfg_single)
                 ([] ++ RecognizedEv recognized_empty :: [AudioSourceOff])).
  { apply Forall_forall. intros e Hin r' He. simpl in Hin.
    destruct Hin as [<-|[<-|[]]]; [injection He as <-; reflexivity | discriminate]. }
  assert (Hk : Forall keeps_final_event [AudioSourceOff]).
  { apply Forall_forall. intros e [<-|[]]. split; [discriminate|intros d He; discriminate]. }
  split; [split; [reflexivity|split; [exact Hr|split; [exact Hk|reflexivity]]]|].
  exact (empty_nbest_no_speech cfg_single vendor_ok [] [AudioSourceOff] recognized_empty _
           eq_refl Hr Hk eq_refl).
Defined.

End Claims.

Module AudioClaims.

Import Audio Samples.

Lemma int16_view_even (bs : list Byte.byte) :
  Nat.even (List.length bs) = true -> exists l, int16_view bs = Some l.
Proof.
  revert bs. fix IH 1. intros [|a [|b rest]] H.
  - exists []. reflexivity.
  - discriminate.
  - simpl in H. destruct (IH rest H) as [l Hl].
    exists (int16_of a b :: l). simpl. rewrite Hl. reflexivity.
Qed.

Lemma fire_keeps_muted (m : monitor) : muted (fire_onAudibleChunk m) = muted m.
Proof. unfold fire_onAudibleChunk. destruct (onAudibleChunk_armed m); reflexivity. Qed.

(** C7, as stated: a read while muted of a chunk whose byte length is odd
    throws ([new Int16Array] raises a [RangeError]) instead of returning the
    empty end-marked chunk. *)
Lemma muted_odd_chunk_counterexample :
  muted muted_armed = true /\ read_improviser 7%Z muted_armed odd_chunk = None.
Proof. split; reflexivity. Qed.

(** C7, amended: every read performed while [muted] is set, of a chunk
    holding a whole number of 16-bit samples, returns a chunk with an empty
    buffer, [isEnd] set and the current time, whatever the chunk read. *)
Theorem muted_read_ends_stream (now : Z) (m : monitor) (c : chunk) :
  muted m = true ->
  Nat.even (List.length (buffer c)) = true ->
  exists m', read_improviser now m c =
             Some (m', {| buffer := []; isEnd := true; timeReceived := now |}).
Proof.
  intros Hm He. unfold read_improviser, averageAmplitude.
  destruct (int16_view_even (buffer c) He) as [l Hl]. rewrite Hl. cbn [option_map].
  match goal with |- context [if amplitude_gt ?a 150 then _ else _] =>
    destruct (amplitude_gt a 150) end.
  - rewrite fire_keeps_muted, Hm. eexists. reflexivity.
  - rewrite Hm. eexists. reflexivity.
Qed.

Lemma muted_read_ends_stream_witness :
  (muted muted_armed = true /\ Nat.even (List.length (buffer loud_chunk)) = true) /\
  exists m', read_improviser 7%Z muted_armed loud_chunk =
             Some (m', {| buffer := []; isEnd := true; timeReceived := 7%Z |}).
Proof.
  split; [split; reflexivity|].
  apply muted_read_ends_stream; reflexivity.
Defined.

(** C9: the amplitude check runs before the [muted] substitution: a loud
    chunk read while muted, with [onAudibleChunk] still set, pushes
    [firstAudibleChunk] on the session queue and disarms the callback, while
    the caller receives the empty end-marked chunk; the loop turns that
    queued event into a [soundstart] dispatch. *)
Theorem muted_loud_chunk_fires (now : Z) (m : monitor) (c : chunk) (avg : Z * Z) :
  muted m = true ->
  onAudibleChunk_armed m = true ->
  averageAmplitude (buffer c) = Some avg ->
  amplitude_gt avg 150 = true ->
  read_improviser now m c =
    Some ({| onAudibleChunk_armed := false; muted := true;
             queue := queue m ++ [Recognition.FirstAudibleChunk] |},
          {| buffer := []; isEnd := true; timeReceived := now |}) /\
  (forall cfg vd st, exists tr st',
     Recognition.step cfg vd st Recognition.FirstAudibleChunk = Recognition.SContinue tr st' /\
     In (Recognition.Dispatch Recognition.EvSoundStart) tr).
Proof.
  intros Hm Ha Havg Hgt. split.
  - unfold read_improviser, fire_onAudibleChunk. rewrite Havg, Hgt, Ha. simpl.
    rewrite Hm. reflexivity.
  - intros cfg vd st. unfold Recognition.step. simpl.
    eexists _, _. split; [reflexivity|].
    apply in_cons, in_or_app. right. left. reflexivity.
Qed.

Lemma muted_loud_chunk_fires_witness :
  (muted muted_armed = true /\ onAudibleChunk_armed muted_armed = true /\
   averageAmplitude (buffer loud_chunk) = Some (4096%Z, 1%Z) /\ amplitude_gt (4096%Z, 1%Z) 150 = true) /\
  (read_improviser 7%Z muted_armed loud_chunk =
    Some ({| onAudibleChunk_armed := false; muted := true;
             queue := queue muted_armed ++ [Recognition.FirstAudibleChunk] |},
          {| buffer := []; isEnd := true; timeReceived := 7%Z |}) /\
  (forall cfg vd st, exists tr st',
     Recognition.step cfg vd st Recognition.FirstAudibleChunk = Recognition.SContinue tr st' /\
     In (Recognition.Dispatch Recognition.EvSoundStart) tr)).
Proof.
  split; [repeat split; reflexivity|].
  apply (muted_loud_chunk_fires 7%Z muted_armed loud_chunk (4096%Z, 1%Z)); reflexivity.
Defined.

End AudioClaims.

Module FactoryClaims.

Import Factory Samples.

(** C10 (code bug): with a credential but no global [window], the check
    [window.navigator.mediaDevices] throws a [ReferenceError] instead of
    the guard warning and returning an empty object. *)
Lemma no_window_throws_reference_error :
  createSpeechRecognitionPonyfill None JUndefined (JString "subscription-key") JUndefined
    = Throws "ReferenceError: window is not defined".
Proof. reflexivity. Qed.

(** X18: if neither [authorizationToken] nor [subscriptionKey] is
    truthy, or a global [window] exists whose [navigator.mediaDevices] or
    [getUserMedia] is missing, the factory does not throw: it logs one
    console warning and returns an empty object. *)
Theorem ponyfill_guard_returns_empty (w : option window_t)
  (authorizationToken subscriptionKey looseEvent : jsval) :
  (truthy authorizationToken = false /\ truthy subscriptionKey = false) \/
  (exists win, w = Some win /\
     (mediaDevices win = None \/
      exists md, mediaDevices win = Some md /\ truthy (getUserMedia md) = false)) ->
  exists msg, createSpeechRecognitionPonyfill w authorizationToken subscriptionKey looseEvent
              = Returns [msg] [].
Proof.
  unfold createSpeechRecognitionPonyfill.
  intros [[Ht Hk] | (win & -> & [Hmd | (md & Hmd & Hg)])].
  - rewrite Ht, Hk. eexists. reflexivity.
  - destruct (negb (truthy authorizationToken) && negb (truthy subscriptionKey));
      rewrite ?Hmd; eexists; reflexivity.
  - destruct (negb (truthy authorizationToken) && negb (truthy subscriptionKey));
      rewrite ?Hmd, ?Hg; eexists; reflexivity.
Qed.

Lemma ponyfill_guard_returns_empty_witness :
  ((truthy JUndefined = false /\ truthy (JString "subscription-key") = false) \/
   (exists win, Some window_without_webrtc = Some win /\
      (mediaDevices win = None \/
       exists md, mediaDevices win = Some md /\ truthy (getUserMedia md) = false))) /\
  exists msg, createSpeechRecognitionPonyfill (Some window_without_webrtc) JUndefined
                (JString "subscription-key") JUndefined = Returns [msg] [].
Proof.
  assert (H : (truthy JUndefined = false /\ truthy (JString "subscription-key") = false) \/
   (exists win, Some window_without_webrtc = Some win /\
      (mediaDevices win = None \/
       exists md, mediaDevices win = Some md /\ truthy (getUserMedia md) = false))).
  { right. exists window_without_webrtc. split; [reflexivity|left; reflexivity]. }
  split; [exact H|].
  exact (ponyfill_guard_returns_empty _ _ _ _ H).
Defined.

End FactoryClaims.

(** * Further properties of the recognition loop *)

Module RecognitionMoreFacts.

Import Recognition RecognitionMore RecognitionFacts.

Lemma step_balanced (cfg : config) (vd : vendor) (st : loop_state) (e : qevent)
  (a1 b1 a2 b2 a3 b3 : nat) :
  (a1 >= 1 <-> b1 + flag (audioStarted st) >= 1) ->
  (a2 >= 1 <-> b2 + flag (soundStarted st) >= 1) ->
  (a3 >= 1 <-> b3 + flag (speechStarted st) >= 1) ->
  match step cfg vd st e with
  | SContinue tr st' | SBreak tr st' =>
      (a1 + count_ev is_audiostart tr >= 1 <->
       b1 + count_ev is_audioend tr + flag (audioStarted st') >= 1) /\
      (a2 + count_ev is_soundstart tr >= 1 <->
       b2 + count_ev is_soundend tr + flag (soundStarted st') >= 1) /\
      (a3 + count_ev is_speechstart tr >= 1 <->
       b3 + count_ev is_speechend tr + flag (speechStarted st') >= 1)
  | SFail _ _ => True
  end.
Proof.
  destruct st as [l au so sp stp mu fe fr]; simpl.
  destruct au, so, sp; unfold flag; intros H1 H2 H3;
    unfold_step; simpl; repeat (break_match; simpl); cbn; lia.
Qed.

Lemma run_loop_balanced (cfg : config) (vd : vendor) (evs : list qevent) :
  forall st a1 b1 a2 b2 a3 b3,
  (a1 >= 1 <-> b1 + flag (audioStarted st) >= 1) ->
  (a2 >= 1 <-> b2 + flag (soundStarted st) >= 1) ->
  (a3 >= 1 <-> b3 + flag (speechStarted st) >= 1) ->
  match run_loop cfg vd st evs with
  | LExit tr st' _ | LPending tr st' =>
      (a1 + count_ev is_audiostart tr >= 1 <->
       b1 + count_ev is_audioend tr + flag (audioStarted st') >= 1) /\
      (a2 + count_ev is_soundstart tr >= 1 <->
       b2 + count_ev is_soundend tr + flag (soundStarted st') >= 1) /\
      (a3 + count_ev is_speechstart tr >= 1 <->
       b3 + count_ev is_speechend tr + flag (speechStarted st') >= 1)
  | LFail _ _ => True
  end.
Proof.
  induction evs as [|e evs IH]; intros st a1 b1 a2 b2 a3 b3 H1 H2 H3; simpl.
  - destruct (negb (stopping st) || audioStarted st); cbn; lia.
  - destruct (negb (stopping st) || audioStarted st); [|cbn; lia].
    pose proof (step_balanced cfg vd st e a1 b1 a2 b2 a3 b3 H1 H2 H3) as Hs.
    destruct (step cfg vd st e) as [tr st'|tr st'|tr f]; [|exact Hs|exact I].
    destruct Hs as (K1 & K2 & K3).
    specialize (IH st' _ _ _ _ _ _ K1 K2 K3).
    destruct (run_loop cfg vd st' evs); simpl; rewrite ?count_ev_app; try exact I; lia.
Qed.

Lemma exit_effects_balanced (st : loop_state) (a1 b1 a2 b2 a3 b3 : nat) :
  (a1 >= 1 <-> b1 + flag (audioStarted st) >= 1) ->
  (a2 >= 1 <-> b2 + flag (soundStarted st) >= 1) ->
  (a3 >= 1 <-> b3 + flag (speechStarted st) >= 1) ->
  (a1 + count_ev is_audiostart (exit_effects st) >= 1 <->
   b1 + count_ev is_audioend (exit_effects st) >= 1) /\
  (a2 + count_ev is_soundstart (exit_effects st) >= 1 <->
   b2 + count_ev is_soundend (exit_effects st) >= 1) /\
  (a3 + count_ev is_speechstart (exit_effects st) >= 1 <->
   b3 + count_ev is_speechend (exit_effects st) >= 1).
Proof.
  unfold exit_effects, flag.
  destruct (speechStarted st), (soundStarted st), (audioStarted st);
    destruct (finalEvent st) as [[c|[|r rs]]|]; cbn; lia.
Qed.

Lemma step_error_result_counts (cfg : config) (vd : vendor) (st : loop_state) (e : qevent) :
  match step cfg vd st e with
  | SContinue tr _ | SBreak tr _ | SFail tr _ =>
      count_ev is_error tr = 0 /\
      (continuous cfg = false -> looseEvents cfg = false -> interimResults cfg = false ->
       count_ev is_result tr = 0)
  end.
Proof.
  destruct cfg as [co ir ma tn le]; simpl.
  unfold_step; simpl; repeat (break_match; simpl); cbn; split; intros; try reflexivity;
    try discriminate; rewrite ?andb_false_r in *;
    repeat match goal with H : _ && _ = true |- _ => apply andb_prop in H; destruct H end;
    try congruence.
Qed.

Lemma run_loop_error_result_counts (cfg : config) (vd : vendor) (evs : list qevent) :
  forall st,
  match run_loop cfg vd st evs with
  | LExit tr _ _ | LPending tr _ | LFail tr _ =>
      count_ev is_error tr = 0 /\
      (continuous cfg = false -> looseEvents cfg = false -> interimResults cfg = false ->
       count_ev is_result tr = 0)
  end.
Proof.
  induction evs as [|e evs IH]; intro st; simpl.
  - destruct (negb (stopping st) || audioStarted st); split; reflexivity.
  - destruct (negb (stopping st) || audioStarted st); [|split; reflexivity].
    pose proof (step_error_result_counts cfg vd st e) as Hs.
    destruct (step cfg vd st e) as [tr st'|tr st'|tr f]; [|exact Hs|exact Hs].
    destruct Hs as [H1 H2]. specialize (IH st').
    destruct (run_loop cfg vd st' evs); simpl; rewrite !count_ev_app;
      destruct IH as [K1 K2]; split; intros; rewrite ?H1, ?K1, ?H2, ?K2 by assumption;
      reflexivity.
Qed.

Lemma exit_effects_errors (st : loop_state) :
  count_ev is_error (exit_effects st) <= 1 /\
  (count_ev is_error (exit_effects st) = 1 ->
   exists mid c, exit_effects st = mid ++ [Dispatch (EvError c); Dispatch EvEnd]) /\
  count_ev is_result (exit_effects st) <= 1 /\
  exists mid post, exit_effects st = mid ++ post /\
    count_ev is_result mid = 0 /\ count_ev is_pending_end post = 0.
Proof.
  unfold exit_effects.
  set (ends := (if speechStarted st then [Dispatch EvSpeechEnd] else []) ++
               (if soundStarted st then [Dispatch EvSoundEnd] else []) ++
               (if audioStarted st then [Dispatch EvAudioEnd] else [])).
  assert (He : count_ev is_error ends = 0 /\ count_ev is_result ends = 0).
  { subst ends. destruct (speechStarted st), (soundStarted st), (audioStarted st);
      split; reflexivity. }
  replace ((if speechStarted st then [Dispatch EvSpeechEnd] else []) ++
           (if soundStarted st then [Dispatch EvSoundEnd] else []) ++
           (if audioStarted st then [Dispatch EvAudioEnd] else []) ++
           match finalEvent st with
           | Some fe => [Dispatch (final_as_event (promote fe))]
           | None => []
           end ++ [Dispatch EvEnd])
    with (ends ++ match finalEvent st with
                  | Some fe => [Dispatch (final_as_event (promote fe))]
                  | None => []
                  end ++ [Dispatch EvEnd])
    by (subst ends; rewrite <- !app_assoc; reflexivity).
  destruct He as [He Hr].
  rewrite !count_ev_app, He, Hr.
  destruct (finalEvent st) as [[c|[|r rs]]|];
    cbn [app count_ev dispatched filter List.length final_as_event promote is_error is_result].
  - split; [lia|split; [intros _; exists ends, c; reflexivity|split; [lia|]]].
    exists ends, [Dispatch (EvError c); Dispatch EvEnd]. split; [reflexivity|split; [exact Hr|reflexivity]].
  - split; [lia|split; [intros _; exists ends, NoSpeech; reflexivity|split; [lia|]]].
    exists ends, [Dispatch (EvError NoSpeech); Dispatch EvEnd].
    split; [reflexivity|split; [exact Hr|reflexivity]].
  - split; [lia|split; [intros; lia|split; [lia|]]].
    exists ends, [Dispatch (EvResult (r :: rs)); Dispatch EvEnd].
    split; [reflexivity|split; [exact Hr|reflexivity]].
  - split; [lia|split; [intros; lia|split; [lia|]]].
    exists ends, [Dispatch EvEnd]. split; [reflexivity|split; [exact Hr|reflexivity]].
Qed.

Lemma step_start_at_first (cfg : config) (vd : vendor) (st : loop_state) (e : qevent) :
  loop st = 0 ->
  match step cfg vd st e with
  | SContinue tr _ | SBreak tr _ | SFail tr _ =>
      count_ev is_start tr =
        match e with CanceledEv d => if permission_denied_test d then 0 else 1 | _ => 1 end
  end.
Proof.
  destruct st as [l au so sp stp mu fe fr]; simpl; intros ->.
  unfold_step; simpl; repeat (break_match; simpl); cbn; reflexivity.
Qed.

End RecognitionMoreFacts.

Module RecognitionExtras.

Import Recognition RecognitionMore RecognitionFacts RecognitionMoreFacts Samples MoreSamples.

(** X1: in every session that completes, for each of audio, sound and
    speech, an [...end] event is dispatched if and only if the matching
    [...start] event was: the loop keeps the invariant that a start was
    dispatched iff an end was or the started flag is still set, and the exit
    sequence closes every flag still set. *)
Theorem session_start_end_balanced (cfg : config) (vd : vendor) (evs : list qevent)
  (tr : list effect) (rest : list qevent) :
  _startOnce cfg vd evs = Completed tr rest ->
  (count_ev is_audiostart tr >= 1 <-> count_ev is_audioend tr >= 1) /\
  (count_ev is_soundstart tr >= 1 <-> count_ev is_soundend tr >= 1) /\
  (count_ev is_speechstart tr >= 1 <-> count_ev is_speechend tr >= 1).
Proof.
  unfold _startOnce.
  destruct (createRecognizer_fails vd); [discriminate|].
  destruct (startContinuous_fails vd); [discriminate|].
  pose proof (run_loop_balanced cfg vd evs initial_state 0 0 0 0 0 0) as Hl.
  cbn [audioStarted soundStarted speechStarted initial_state mk_state flag] in Hl.
  destruct (run_loop cfg vd initial_state evs) as [tr1 st1 rest1| |]; try discriminate.
  intro H. injection H as <- _.
  destruct (Hl ltac:(lia) ltac:(lia) ltac:(lia)) as (K1 & K2 & K3).
  destruct (exit_effects_balanced st1 _ _ _ _ _ _ K1 K2 K3) as (E1 & E2 & E3).
  rewrite !count_ev_app. lia.
Qed.

Lemma session_start_end_balanced_witness :
  _startOnce cfg_single vendor_ok session_quiet_speech =
    Completed (start cfg_single vendor_ok session_quiet_speech) [] /\
  (count_ev is_audiostart (start cfg_single vendor_ok session_quiet_speech) >= 1 <->
   count_ev is_audioend (start cfg_single vendor_ok session_quiet_speech) >= 1) /\
  (count_ev is_soundstart (start cfg_single vendor_ok session_quiet_speech) >= 1 <->
   count_ev is_soundend (start cfg_single vendor_ok session_quiet_speech) >= 1) /\
  (count_ev is_speechstart (start cfg_single vendor_ok session_quiet_speech) >= 1 <->
   count_ev is_speechend (start cfg_single vendor_ok session_quiet_speech) >= 1).
Proof.
  split; [reflexivity|].
  apply (session_start_end_balanced cfg_single vendor_ok session_quiet_speech
           (start cfg_single vendor_ok session_quiet_speech) []).
  reflexivity.
Defined.

(** X2: a [canceled] event with a non-empty error text ends the loop at
    once, leaving the rest of the queue unconsumed, and stages the error
    [not-allowed] when the text matches [/Permission\sdenied/u], otherwise
    [network] when it contains [1006], otherwise [unknown]; for [network]
    while audio had not started, [audiostart] and [audioend] are dispatched
    back to back. A [canceled] event with an empty error text changes
    nothing but the iteration count and dispatches no error. *)
Theorem canceled_error_classified (cfg : config) (vd : vendor) (st : loop_state)
  (rest : list qevent) :
  negb (stopping st) || audioStarted st = true ->
  (forall d, d <> EmptyString ->
   exists tr st',
     run_loop cfg vd st (CanceledEv d :: rest) = LExit tr st' rest /\
     finalEvent st' =
       Some (FinalError (if permission_denied_test d then NotAllowed
                         else if network_1006_test d then Network else Unknown)) /\
     finalizedResults st' = finalizedResults st /\
     (permission_denied_test d = false -> network_1006_test d = true ->
      audioStarted st = false ->
      exists pre, tr = pre ++ [Dispatch EvAudioStart; Dispatch EvAudioEnd])) /\
  (exists tr, step cfg vd st (CanceledEv EmptyString) = SContinue tr (next st) /\
              count_ev is_error tr = 0).
Proof.
  intro Hc. split.
  - intros d Hd.
    assert (Hne : String.eqb d EmptyString = false)
      by (destruct d; [congruence|reflexivity]).
    simpl run_loop. rewrite Hc. unfold step. simpl. rewrite Hne. simpl negb.
    destruct (permission_denied_test d) eqn:P;
      [|destruct (network_1006_test d) eqn:N];
      (eexists _, _; split; [reflexivity|]); simpl;
      (split; [reflexivity|split; [reflexivity|]]); intros; try discriminate.
    match goal with H : audioStarted st = false |- _ => rewrite H end.
    exists (Dispatch (EvCognitiveServices (CanceledEv d))
              :: (if Nat.eqb (loop st) 0 then [Dispatch EvStart] else [])).
    reflexivity.
  - unfold step. simpl.
    eexists. split; [reflexivity|].
    destruct (Nat.eqb (loop st) 0); reflexivity.
Qed.

Lemma canceled_error_classified_witness :
  negb (stopping initial_state) || audioStarted initial_state = true /\
  (forall d, d <> EmptyString ->
   exists tr st',
     run_loop cfg_single vendor_ok initial_state (CanceledEv d :: []) = LExit tr st' [] /\
     finalEvent st' =
       Some (FinalError (if permission_denied_test d then NotAllowed
                         else if network_1006_test d then Network else Unknown)) /\
     finalizedResults st' = finalizedResults initial_state /\
     (permission_denied_test d = false -> network_1006_test d = true ->
      audioStarted initial_state = false ->
      exists pre, tr = pre ++ [Dispatch EvAudioStart; Dispatch EvAudioEnd])) /\
  (exists tr, step cfg_single vendor_ok initial_state (CanceledEv EmptyString) =
                SContinue tr (next initial_state) /\
              count_ev is_error tr = 0).
Proof.
  split; [reflexivity|].
  apply (canceled_error_classified cfg_single vendor_ok initial_state []). reflexivity.
Defined.

(** X3: [abort()] before any audio started (and before [stop()]) makes
    the loop exit right after it, leaving the rest of the queue unconsumed,
    once the awaited [stopContinuousRecognitionAsync] resolves; the session
    then ends with the error [aborted] immediately followed by [end]. *)
Theorem abort_before_audio_ends_session (cfg : config) (vd : vendor) (st : loop_state)
  (rest : list qevent) :
  stopping st = false ->
  audioStarted st = false ->
  stopContinuous_fails vd = None ->
  exists tr st',
    run_loop cfg vd st (Abort :: rest) = LExit tr st' rest /\
    In (StopContinuousRecognition true) tr /\
    exists pre, exit_effects st' = pre ++ [Dispatch (EvError Aborted); Dispatch EvEnd].
Proof.
  intros Hs Ha Hv.
  simpl run_loop. rewrite Hs, Ha. simpl. unfold step. simpl. rewrite Hv.
  simpl. rewrite Ha.
  destruct rest as [|e0 rest']; simpl;
  (eexists _, _; split; [reflexivity|]); split.
  1, 3: destruct (Nat.eqb (loop st) 0); simpl; auto.
  all: unfold exit_effects; simpl;
    exists ((if speechStarted st then [Dispatch EvSpeechEnd] else []) ++
            (if soundStarted st then [Dispatch EvSoundEnd] else []));
    rewrite <- app_assoc; reflexivity.
Qed.

Lemma abort_before_audio_ends_session_witness :
  (stopping initial_state = false /\ audioStarted initial_state = false /\
   stopContinuous_fails vendor_ok = None) /\
  exists tr st',
    run_loop cfg_single vendor_ok initial_state (Abort :: [AudioSourceReady]) =
      LExit tr st' [AudioSourceReady] /\
    In (StopContinuousRecognition true) tr /\
    exists pre, exit_effects st' = pre ++ [Dispatch (EvError Aborted); Dispatch EvEnd].
Proof.
  split; [split; [reflexivity|split; reflexivity]|].
  apply abort_before_audio_ends_session; reflexivity.
Defined.

(** X4: while the loop runs, an [abort] whose awaited
    [stopContinuousRecognitionAsync] rejects makes the loop throw that
    rejection right after the stop call. *)
Theorem abort_stop_rejection_fails (cfg : config) (vd : vendor) (st : loop_state)
  (rest : list qevent) (f : failure) :
  negb (stopping st) || audioStarted st = true ->
  stopContinuous_fails vd = Some f ->
  exists pre, run_loop cfg vd st (Abort :: rest) =
              LFail (pre ++ [StopContinuousRecognition true]) f.
Proof.
  intros Hc Hv. simpl run_loop. rewrite Hc. unfold step. simpl. rewrite Hv.
  exists (Dispatch (EvCognitiveServices Abort)
            :: (if Nat.eqb (loop st) 0 then [Dispatch EvStart] else [])).
  reflexivity.
Qed.

Lemma abort_stop_rejection_fails_witness :
  (negb (stopping initial_state) || audioStarted initial_state = true /\
   stopContinuous_fails vendor_stop_rejects = Some stop_rejected) /\
  exists pre, run_loop cfg_single vendor_stop_rejects initial_state (Abort :: []) =
              LFail (pre ++ [StopContinuousRecognition true]) stop_rejected.
Proof.
  split; [split; reflexivity|].
  apply abort_stop_rejection_fails; reflexivity.
Defined.

(** X5: when [_startOnce] rejects, [start()] dispatches exactly one error
    event carrying the rejection, after everything the loop dispatched, and
    never dispatches [end]. *)
Theorem rejected_session_never_ends (cfg : config) (vd : vendor) (evs : list qevent)
  (tr : list effect) (f : failure) :
  _startOnce cfg vd evs = Rejected tr f ->
  start cfg vd evs = tr ++ [Dispatch (EvFailure f)] /\
  count_ev is_end (start cfg vd evs) = 0 /\
  count_ev is_failure (start cfg vd evs) = 1.
Proof.
  intro H. unfold start. rewrite H.
  assert (Hc : count_ev is_end tr = 0 /\ count_ev is_failure tr = 0).
  { revert H. unfold _startOnce.
    destruct (createRecognizer_fails vd); [intro H; injection H as <- _; split; reflexivity|].
    destruct (startContinuous_fails vd); [intro H; injection H as <- _; split; reflexivity|].
    pose proof (run_loop_counts cfg vd evs initial_state) as Hl.
    destruct (run_loop cfg vd initial_state evs); intro H; try discriminate.
    injection H as <- _. tauto. }
  rewrite !count_ev_app. destruct Hc as [H1 H2]. rewrite H1, H2.
  split; [reflexivity|split; reflexivity].
Qed.

Lemma rejected_session_never_ends_witness :
  _startOnce cfg_single vendor_stop_rejects [Abort] =
    Rejected [Dispatch (EvCognitiveServices Abort); Dispatch EvStart;
              StopContinuousRecognition true] stop_rejected /\
  start cfg_single vendor_stop_rejects [Abort] =
    [Dispatch (EvCognitiveServices Abort); Dispatch EvStart;
     StopContinuousRecognition true] ++ [Dispatch (EvFailure stop_rejected)] /\
  count_ev is_end (start cfg_single vendor_stop_rejects [Abort]) = 0 /\
  count_ev is_failure (start cfg_single vendor_stop_rejects [Abort]) = 1.
Proof.
  split; [reflexivity|].
  apply rejected_session_never_ends. reflexivity.
Defined.

(** X6: a completed session dispatches at most one [error] event, and when
    it dispatches one, that event is the last effect before [end]. *)
Theorem session_error_last (cfg : config) (vd : vendor) (evs : list qevent)
  (tr : list effect) (rest : list qevent) :
  _startOnce cfg vd evs = Completed tr rest ->
  count_ev is_error tr <= 1 /\
  (count_ev is_error tr = 1 ->
   exists pre c, tr = pre ++ [Dispatch (EvError c); Dispatch EvEnd]).
Proof.
  unfold _startOnce.
  destruct (createRecognizer_fails vd); [discriminate|].
  destruct (startContinuous_fails vd); [discriminate|].
  pose proof (run_loop_error_result_counts cfg vd evs initial_state) as Hl.
  destruct (run_loop cfg vd initial_state evs) as [tr1 st1 rest1| |]; try discriminate.
  intro H. injection H as <- _. destruct Hl as [Hl _].
  destruct (exit_effects_errors st1) as (E1 & E2 & _).
  rewrite count_ev_app, Hl. simpl. split; [exact E1|].
  intro H1. destruct (E2 H1) as (mid & c & Hm).
  exists (tr1 ++ mid), c. rewrite Hm, app_assoc. reflexivity.
Qed.

Lemma session_error_last_witness :
  _startOnce cfg_single vendor_ok [AudioSourceReady; CanceledEv network_closed] =
    Completed (start cfg_single vendor_ok [AudioSourceReady; CanceledEv network_closed]) [] /\
  count_ev is_error (start cfg_single vendor_ok [AudioSourceReady; CanceledEv network_closed]) <= 1 /\
  (count_ev is_error (start cfg_single vendor_ok [AudioSourceReady; CanceledEv network_closed]) = 1 ->
   exists pre c, start cfg_single vendor_ok [AudioSourceReady; CanceledEv network_closed] =
                 pre ++ [Dispatch (EvError c); Dispatch EvEnd]).
Proof.
  split; [reflexivity|].
  apply (session_error_last cfg_single vendor_ok [AudioSourceReady; CanceledEv network_closed]
           (start cfg_single vendor_ok [AudioSourceReady; CanceledEv network_closed]) []). reflexivity.
Defined.

(** X7: with [continuous], [interimResults] and loose events all off, a
    completed session dispatches at most one [result] event, and every
    [speechend], [soundend] and [audioend] is dispatched before it. *)
Theorem strict_single_result_after_ends (cfg : config) (vd : vendor) (evs : list qevent)
  (tr : list effect) (rest : list qevent) :
  continuous cfg = false -> looseEvents cfg = false -> interimResults cfg = false ->
  _startOnce cfg vd evs = Completed tr rest ->
  count_ev is_result tr <= 1 /\
  exists pre post, tr = pre ++ post /\
    count_ev is_result pre = 0 /\ count_ev is_pending_end post = 0.
Proof.
  intros Hc Hl Hi. unfold _startOnce.
  destruct (createRecognizer_fails vd); [discriminate|].
  destruct (startContinuous_fails vd); [discriminate|].
  pose proof (run_loop_error_result_counts cfg vd evs initial_state) as Hr.
  destruct (run_loop cfg vd initial_state evs) as [tr1 st1 rest1| |]; try discriminate.
  intro H. injection H as <- _. destruct Hr as [_ Hr]. specialize (Hr Hc Hl Hi).
  destruct (exit_effects_errors st1) as (_ & _ & E3 & mid & post & Hm & Hmr & Hp).
  rewrite count_ev_app, Hr. simpl. split; [exact E3|].
  exists (tr1 ++ mid), post. rewrite Hm, app_assoc. split; [reflexivity|].
  rewrite count_ev_app, Hr, Hmr. split; [reflexivity|exact Hp].
Qed.

Lemma strict_single_result_after_ends_witness :
  (continuous cfg_single = false /\ looseEvents cfg_single = false /\
   interimResults cfg_single = false /\
   _startOnce cfg_single vendor_ok session_hello = Completed trace_hello []) /\
  count_ev is_result trace_hello <= 1 /\
  exists pre post, trace_hello = pre ++ post /\
    count_ev is_result pre = 0 /\ count_ev is_pending_end post = 0.
Proof.
  split; [split; [reflexivity|split; [reflexivity|split; reflexivity]]|].
  apply (strict_single_result_after_ends cfg_single vendor_ok session_hello trace_hello []);
    reflexivity.
Defined.

(** X8: with loose events on and [continuous] off, a [recognized] event
    with a non-empty top transcript, other than [NoMatch], dispatches the
    result (all finalized results, the new one last) during its own
    iteration and leaves no final event staged. *)
Theorem loose_result_dispatched_at_once (cfg : config) (vd : vendor) (st : loop_state)
  (r : vendor_result) :
  continuous cfg = false -> looseEvents cfg = true ->
  reason r <> NoMatch -> recognizable cfg r = true ->
  exists tr st',
    step cfg vd st (RecognizedEv r) = SContinue tr st' /\
    In (Dispatch (EvResult (finalizedResults st'))) tr /\
    finalEvent st' = None /\
    finalizedResults st' = finalizedResults st ++ [normalize cfg r].
Proof.
  intros Hc Hl Hn Hr. unfold recognizable in Hr.
  destruct (alternatives (normalize cfg r)) as [|top tl] eqn:A; [discriminate|].
  unfold step. cbn -[normalize].
  destruct (reason r) eqn:R; try (exfalso; apply Hn; reflexivity);
    unfold backfill, recognition_tail, prepend_step; cbn -[normalize]; rewrite A, Hr, Hc;
    cbn -[normalize]; rewrite Hl; cbn -[normalize];
    (eexists _, _; split; [reflexivity|]); simpl;
    (split; [|split; reflexivity]);
    right; apply in_or_app; right; right; left; reflexivity.
Qed.

Lemma loose_result_dispatched_at_once_witness :
  (continuous cfg_loose = false /\ looseEvents cfg_loose = true /\
   reason recognized_hello <> NoMatch /\ recognizable cfg_loose recognized_hello = true) /\
  exists tr st',
    step cfg_loose vendor_ok initial_state (RecognizedEv recognized_hello) = SContinue tr st' /\
    In (Dispatch (EvResult (finalizedResults st'))) tr /\
    finalEvent st' = None /\
    finalizedResults st' = finalizedResults initial_state ++ [normalize cfg_loose recognized_hello].
Proof.
  split; [split; [reflexivity|split; [reflexivity|split; [discriminate|reflexivity]]]|].
  apply loose_result_dispatched_at_once; [reflexivity|reflexivity|discriminate|reflexivity].
Defined.

(** X9: in a completed session, [start] is dispatched exactly once, unless
    the first consumed event is a [canceled] event whose error text matches
    [/Permission\sdenied/u], in which case it is never dispatched. *)
Theorem start_dispatched_unless_permission_denied (cfg : config) (vd : vendor)
  (evs : list qevent) (tr : list effect) (rest : list qevent) :
  _startOnce cfg vd evs = Completed tr rest ->
  exists e evs', evs = e :: evs' /\
    count_ev is_start tr =
      match e with CanceledEv d => if permission_denied_test d then 0 else 1 | _ => 1 end.
Proof.
  unfold _startOnce.
  destruct (createRecognizer_fails vd); [discriminate|].
  destruct (startContinuous_fails vd); [discriminate|].
  intro H. destruct evs as [|e evs']; [discriminate|].
  exists e, evs'. split; [reflexivity|]. revert H.
  simpl run_loop.
  pose proof (step_start_at_first cfg vd initial_state e eq_refl) as Hs.
  pose proof (step_counts cfg vd initial_state e) as Hc.
  destruct (step cfg vd initial_state e) as [tr1 st1|tr1 st1|tr1 f]; try discriminate.
  - pose proof (run_loop_counts cfg vd evs' st1) as Hl.
    destruct Hc as (_ & _ & _ & Hl1). rewrite Hl1 in Hl. simpl in Hl.
    destruct (run_loop cfg vd st1 evs') as [tr2 st2 rest2| |]; try discriminate.
    intro H. injection H as <- _. simpl.
    destruct (exit_effects_shape st2) as (mid2 & Hx2 & Hs2 & _).
    rewrite !count_ev_app, Hx2, count_ev_app, Hs2, Hs.
    replace (count_ev is_start [Dispatch EvEnd]) with 0 by reflexivity. lia.
  - intro H. injection H as <- _.
    destruct (exit_effects_shape st1) as (mid1 & Hx1 & Hs1 & _).
    rewrite count_ev_app, Hx1, count_ev_app, Hs1, Hs.
    replace (count_ev is_start [Dispatch EvEnd]) with 0 by reflexivity. lia.
Qed.

Lemma start_dispatched_unless_permission_denied_witness :
  _startOnce cfg_single vendor_ok [CanceledEv permission_denied] =
    Completed (start cfg_single vendor_ok [CanceledEv permission_denied]) [] /\
  exists e evs', [CanceledEv permission_denied] = e :: evs' /\
    count_ev is_start (start cfg_single vendor_ok [CanceledEv permission_denied]) =
      match e with CanceledEv d => if permission_denied_test d then 0 else 1 | _ => 1 end.
Proof.
  split; [reflexivity|].
  apply (start_dispatched_unless_permission_denied cfg_single vendor_ok
           [CanceledEv permission_denied] (start cfg_single vendor_ok [CanceledEv permission_denied]) []). reflexivity.
Defined.

End RecognitionExtras.

(** * Further properties of the utterance, the voice list request and the reader *)

Module SynthesisExtras.

Import Synthesis MoreSamples.

(** X10: [play] emits [start] first and never rejects. Once it settles it
    has emitted exactly one of [end] or [error] after [start], and after an
    [end] no source is left for [stop()] to stop; while an awaited call has
    not settled (the array buffer, the decoding or the playback) it has
    emitted [start] only. *)
Theorem play_start_then_end_error_or_pending (ctx : audio_context) (u : utterance) :
  (snd (play ctx u) = Some (Fulfilled tt) /\
   ((emitted (fst (play ctx u)) = emitted u ++ [UStart; UEnd] /\ stop (fst (play ctx u)) = None) \/
    exists e, emitted (fst (play ctx u)) = emitted u ++ [UStart; UError e])) \/
  (snd (play ctx u) = None /\ emitted (fst (play ctx u)) = emitted u ++ [UStart]).
Proof.
  unfold play, stop. simpl.
  destruct (createBufferSource ctx) as [src|e]; simpl;
    [destruct (arrayBufferPromise u) as [[[b|e]|]|]; simpl;
     try (destruct (decodeAudioData ctx _) as [[ab|e]|]; simpl;
          try (destruct (playDecoded ctx ab src) as [[[]|e]|]; simpl))|];
    first
      [ left; split; [reflexivity|];
        first [ left; split; [rewrite <- app_assoc; reflexivity|reflexivity]
              | right; eexists; rewrite <- app_assoc; reflexivity ]
      | right; split; reflexivity ].
Qed.

(** X11: when [playDecoded] rejects after the source was created and the
    data decoded, [play] emits [start] then [error] with that rejection and
    leaves [_playingSource] set, so a later [stop()] calls [stop()] on that
    source. *)
Theorem failed_playback_keeps_source (ctx : audio_context) (u : utterance)
  (src ab : nat) (data : list Byte.byte) (e : string) :
  createBufferSource ctx = Fulfilled src ->
  arrayBufferPromise u = Some (Some (Fulfilled data)) ->
  decodeAudioData ctx (Some data) = Some (Fulfilled ab) ->
  playDecoded ctx ab src = Some (Rejected e) ->
  emitted (fst (play ctx u)) = emitted u ++ [UStart; UError e] /\
  stop (fst (play ctx u)) = Some src.
Proof.
  intros H1 H2 H3 H4. unfold play, stop. rewrite H1. simpl. rewrite H2, H3, H4. simpl.
  rewrite <- app_assoc. split; reflexivity.
Qed.

Lemma failed_playback_keeps_source_witness :
  (createBufferSource ctx_playback_fails = Fulfilled 1 /\
   arrayBufferPromise utterance_loaded = Some (Some (Fulfilled speech_bytes)) /\
   decodeAudioData ctx_playback_fails (Some speech_bytes) = Some (Fulfilled 2) /\
   playDecoded ctx_playback_fails 2 1 = Some (Rejected playback_error)) /\
  emitted (fst (play ctx_playback_fails utterance_loaded)) =
    emitted utterance_loaded ++ [UStart; UError playback_error] /\
  stop (fst (play ctx_playback_fails utterance_loaded)) = Some 1.
Proof.
  split; [split; [reflexivity|split; [reflexivity|split; reflexivity]]|].
  apply failed_playback_keeps_source with (data := speech_bytes) (ab := 2);
    reflexivity.
Defined.

(** X12: when [fetchSpeechData] rejects, [preload] still resolves, and a
    later [play] (whose [createBufferSource()] succeeds) emits [start] then
    [error] carrying that rejection, without touching [_playingSource]. *)
Theorem preload_failure_reported_by_play (ctx : audio_context) (u : utterance)
  (e : string) (src : nat) :
  createBufferSource ctx = Fulfilled src ->
  snd (preload (Some (Rejected e)) u) = Some (Fulfilled tt) /\
  emitted (fst (play ctx (fst (preload (Some (Rejected e)) u)))) = emitted u ++ [UStart; UError e] /\
  stop (fst (play ctx (fst (preload (Some (Rejected e)) u)))) = _playingSource u.
Proof.
  intro H. unfold play, preload, stop. rewrite H. simpl.
  rewrite <- app_assoc. split; [reflexivity|split; reflexivity].
Qed.

Lemma preload_failure_reported_by_play_witness :
  createBufferSource ctx_playback_fails = Fulfilled 1 /\
  snd (preload (Some (Rejected fetch_error)) utterance_new) = Some (Fulfilled tt) /\
  emitted (fst (play ctx_playback_fails
                  (fst (preload (Some (Rejected fetch_error)) utterance_new)))) =
    emitted utterance_new ++ [UStart; UError fetch_error] /\
  stop (fst (play ctx_playback_fails
               (fst (preload (Some (Rejected fetch_error)) utterance_new)))) =
    _playingSource utterance_new.
Proof.
  split; [reflexivity|].
  apply (preload_failure_reported_by_play ctx_playback_fails utterance_new
           fetch_error 1). reflexivity.
Defined.

(** X16: when the source was created and the data decoded but
    [playDecoded] never settles (no [ended], no [closed] state seen),
    [play] stays pending after emitting [start], with neither [end] nor
    [error], and with [_playingSource] set to that source. *)
Theorem hanging_playback_emits_start_only (ctx : audio_context) (u : utterance)
  (src ab : nat) (data : list Byte.byte) :
  createBufferSource ctx = Fulfilled src ->
  arrayBufferPromise u = Some (Some (Fulfilled data)) ->
  decodeAudioData ctx (Some data) = Some (Fulfilled ab) ->
  playDecoded ctx ab src = None ->
  snd (play ctx u) = None /\
  emitted (fst (play ctx u)) = emitted u ++ [UStart] /\
  stop (fst (play ctx u)) = Some src.
Proof.
  intros H1 H2 H3 H4. unfold play, stop. rewrite H1. simpl. rewrite H2, H3, H4. simpl.
  split; [reflexivity|split; reflexivity].
Qed.

Lemma hanging_playback_emits_start_only_witness :
  (createBufferSource ctx_playback_hangs = Fulfilled 1 /\
   arrayBufferPromise utterance_loaded = Some (Some (Fulfilled speech_bytes)) /\
   decodeAudioData ctx_playback_hangs (Some speech_bytes) = Some (Fulfilled 2) /\
   playDecoded ctx_playback_hangs 2 1 = None) /\
  snd (play ctx_playback_hangs utterance_loaded) = None /\
  emitted (fst (play ctx_playback_hangs utterance_loaded)) =
    emitted utterance_loaded ++ [UStart] /\
  stop (fst (play ctx_playback_hangs utterance_loaded)) = Some 1.
Proof.
  split; [split; [reflexivity|split; [reflexivity|split; reflexivity]]|].
  apply hanging_playback_emits_start_only with (data := speech_bytes) (ab := 2);
    reflexivity.
Defined.

End SynthesisExtras.

Module VoicesExtras.

Import Voices MoreSamples.
Local Open Scope string_scope.

Lemma string_forall_app (p : ascii -> bool) (a b : string) :
  string_forall p (a ++ b) = string_forall p a && string_forall p b.
Proof.
  induction a as [|c a IH]; simpl; [reflexivity|]. rewrite IH, andb_assoc. reflexivity.
Qed.

Lemma hex_digit_safe (d : N) : url_safe (hex_digit d) = true.
Proof. unfold hex_digit. generalize (N.to_nat d) as k. intro k. do 16 (destruct k as [|k]; [reflexivity|]). reflexivity. Qed.

Lemma percent_byte_safe (n : N) : string_forall url_safe (percent_byte n) = true.
Proof. unfold percent_byte. simpl. rewrite !hex_digit_safe. reflexivity. Qed.

Lemma utf8_escape_safe (cp : N) : string_forall url_safe (utf8_escape cp) = true.
Proof.
  unfold utf8_escape.
  destruct (N.ltb cp 128); [apply percent_byte_safe|].
  destruct (N.ltb cp 2048); [|destruct (N.ltb cp 65536)];
    rewrite ?string_forall_app, ?percent_byte_safe; reflexivity.
Qed.

Lemma option_map_some {A B : Type} (f : A -> B) (o : option A) (b : B) :
  option_map f o = Some b -> exists a, o = Some a /\ b = f a.
Proof. destruct o as [a|]; simpl; intro H; [injection H as <-; eauto|discriminate]. Qed.

Lemma ascii_unit_not_surrogate (c : N) :
  (c < 128)%N -> is_low_surrogate c = false /\ is_high_surrogate c = false.
Proof.
  intro H. unfold is_low_surrogate, is_high_surrogate.
  destruct (N.leb_spec 56320 c), (N.leb_spec 55296 c); try lia; split; reflexivity.
Qed.

(** [encode] throws exactly on the strings with an unpaired surrogate, as
    long as it keeps only ASCII units. *)
Lemma encode_defined (unescaped : N -> bool) :
  (forall c, unescaped c = true -> (c < 128)%N) ->
  forall s, encode unescaped s <> None <-> well_formed_utf16 s = true.
Proof.
  intros Hu. fix IH 1. intros [|c rest]; simpl.
  - split; [reflexivity|discriminate].
  - destruct (unescaped c) eqn:U.
    + destruct (ascii_unit_not_surrogate c (Hu c U)) as [L Hh]. rewrite L, Hh.
      rewrite <- (IH rest). destruct (encode unescaped rest); simpl; split; congruence.
    + destruct (is_low_surrogate c); [split; congruence|].
      destruct (is_high_surrogate c).
      * destruct rest as [|k rest']; [split; congruence|].
        destruct (is_low_surrogate k); simpl; [|split; congruence].
        rewrite <- (IH rest'). destruct (encode unescaped rest'); simpl; split; congruence.
      * rewrite <- (IH rest). destruct (encode unescaped rest); simpl; split; congruence.
Qed.

Lemma encodeURIComponent_safe (s : js_string) (v : string) :
  encodeURIComponent s = Some v -> string_forall url_safe v = true.
Proof.
  unfold encodeURIComponent. revert s v. fix IH 1. intros s v.
  destruct s as [|c rest]; simpl.
  - intro H. injection H as <-. reflexivity.
  - destruct (unreserved_unit c) eqn:U.
    + intro H. apply option_map_some in H. destruct H as [w [Hw ->]]. simpl.
      rewrite (IH rest w Hw), andb_true_r. unfold url_safe.
      unfold unreserved_unit in U. apply andb_prop in U. destruct U as [_ U]. rewrite U.
      reflexivity.
    + destruct (is_low_surrogate c); [discriminate|].
      destruct (is_high_surrogate c).
      * destruct rest as [|k rest']; [discriminate|].
        destruct (is_low_surrogate k); [|discriminate].
        intro H. apply option_map_some in H. destruct H as [w [Hw ->]].
        rewrite string_forall_app, utf8_escape_safe, (IH rest' w Hw). reflexivity.
      * intro H. apply option_map_some in H. destruct H as [w [Hw ->]].
        rewrite string_forall_app, utf8_escape_safe, (IH rest w Hw). reflexivity.
Qed.

Lemma encodeURIComponent_unreserved (s : js_string) :
  forallb unreserved_unit s = true -> encodeURIComponent s = Some (string_of_units s).
Proof.
  unfold encodeURIComponent.
  induction s as [|c s IH]; simpl; [reflexivity|].
  intro H. apply andb_prop in H. destruct H as [Hc Hs]. rewrite Hc, IH by exact Hs.
  reflexivity.
Qed.

Lemma unreserved_unit_ascii (c : N) : unreserved_unit c = true -> (c < 128)%N.
Proof.
  unfold unreserved_unit. intro H. apply andb_prop in H. destruct H as [H _].
  apply N.ltb_lt. exact H.
Qed.

Lemma uri_unit_ascii (c : N) : unreserved_unit c || reserved_unit c = true -> (c < 128)%N.
Proof.
  unfold unreserved_unit, reserved_unit. intro H. apply orb_prop in H.
  destruct H as [H|H]; apply andb_prop in H; destruct H as [H _]; apply N.ltb_lt; exact H.
Qed.

(** X13: for a non-empty [deploymentId] and a region and id without
    unpaired surrogates, [fetchVoices] requests the
    [voice.speech.microsoft.com] list at [encodeURI(region)] with
    [encodeURIComponent(deploymentId)] as the only query value; that value
    holds only unreserved characters and [%], so no [&], [=], [#], [?], [/]
    or space of the id can add a parameter or end the query, and an id made
    of unreserved characters is sent as it is. An id with an unpaired
    surrogate makes [encodeURIComponent] throw, and no request is sent. *)
Theorem deployment_id_query_encoded (authorizationToken region d : js_string) :
  d <> [] ->
  (well_formed_utf16 region = true -> well_formed_utf16 d = true ->
   exists r v,
     encodeURI region = Some r /\ encodeURIComponent d = Some v /\
     option_map fst (voices_request authorizationToken region (Some d)) =
       Some ("https://" ++ r ++
             ".voice.speech.microsoft.com/cognitiveservices/voices/list?deploymentId=" ++ v) /\
     string_forall url_safe v = true /\
     (forallb unreserved_unit d = true -> v = string_of_units d)) /\
  (well_formed_utf16 d = false -> voices_request authorizationToken region (Some d) = None).
Proof.
  intro Hd. split.
  - intros Hr Hdw.
    apply (encode_defined _ uri_unit_ascii) in Hr.
    apply (encode_defined _ unreserved_unit_ascii) in Hdw.
    destruct (encodeURI region) as [r|] eqn:Er; [|unfold encodeURI in Er; contradiction].
    destruct (encodeURIComponent d) as [v|] eqn:Ev;
      [|unfold encodeURIComponent in Ev; contradiction].
    exists r, v. split; [reflexivity|split; [reflexivity|split; [|split]]].
    + unfold voices_request. rewrite Er. destruct d as [|c d']; [contradiction|].
      rewrite Ev. reflexivity.
    + exact (encodeURIComponent_safe d v Ev).
    + intro Hu. rewrite (encodeURIComponent_unreserved d Hu) in Ev.
      injection Ev as <-. reflexivity.
  - intro Hdw. unfold voices_request.
    destruct (encodeURI region); [|reflexivity].
    destruct (encodeURIComponent d) eqn:Ev.
    + exfalso. assert (encode unreserved_unit d <> None) as Hn.
      { unfold encodeURIComponent in Ev. rewrite Ev. discriminate. }
      apply (encode_defined _ unreserved_unit_ascii) in Hn. congruence.
    + destruct d as [|c d']; [contradiction|]. reflexivity.
Qed.


Lemma deployment_id_query_encoded_witness :
  deployment_with_separators <> [] /\
  (well_formed_utf16 region_westus = true -> well_formed_utf16 deployment_with_separators = true ->
   exists r v,
     encodeURI region_westus = Some r /\ encodeURIComponent deployment_with_separators = Some v /\
     option_map fst (voices_request token_sample region_westus (Some deployment_with_separators)) =
       Some ("https://" ++ r ++
             ".voice.speech.microsoft.com/cognitiveservices/voices/list?deploymentId=" ++ v) /\
     string_forall url_safe v = true /\
     (forallb unreserved_unit deployment_with_separators = true ->
      v = string_of_units deployment_with_separators)) /\
  (well_formed_utf16 deployment_with_separators = false ->
   voices_request token_sample region_westus (Some deployment_with_separators) = None).
Proof.
  split; [discriminate|].
  apply deployment_id_query_encoded. discriminate.
Defined.

End VoicesExtras.

Module AudioExtras.

Import Recognition Audio RecognitionMore AudioClaims Samples MoreSamples.

Lemma read_improviser_queue (now : Z) (m m1 : monitor) (c out : chunk) :
  read_improviser now m c = Some (m1, out) ->
  muted m1 = muted m /\
  ((queue m1 = queue m /\ onAudibleChunk_armed m1 = onAudibleChunk_armed m) \/
   (onAudibleChunk_armed m = true /\ onAudibleChunk_armed m1 = false /\
    queue m1 = queue m ++ [FirstAudibleChunk])).
Proof.
  unfold read_improviser.
  destruct (averageAmplitude (buffer c)) as [avg|]; [|discriminate].
  assert (Hf : forall m1', (if amplitude_gt avg 150 then fire_onAudibleChunk m else m) = m1' ->
    muted m1' = muted m /\
    ((queue m1' = queue m /\ onAudibleChunk_armed m1' = onAudibleChunk_armed m) \/
     (onAudibleChunk_armed m = true /\ onAudibleChunk_armed m1' = false /\
      queue m1' = queue m ++ [FirstAudibleChunk]))).
  { intros m1' <-. destruct (amplitude_gt avg 150); [|auto].
    unfold fire_onAudibleChunk. destruct (onAudibleChunk_armed m) eqn:A; simpl; auto. }
  remember (if amplitude_gt avg 150 then fire_onAudibleChunk m else m) as mm eqn:E.
  destruct (muted mm); intro H; injection H as <- _; apply Hf; reflexivity.
Qed.

(** X14: over any sequence of reads through the wrapped reader, the only
    events pushed on the session queue are [firstAudibleChunk], at most one
    of them in all and none if [onAudibleChunk] was already cleared; the
    reads never change [muted]. *)
Theorem reads_fire_at_most_once (now : Z) (cs : list chunk) :
  forall m m' outs,
  read_many now m cs = Some (m', outs) ->
  muted m' = muted m /\
  exists added, queue m' = queue m ++ added /\
    Forall (fun e => e = FirstAudibleChunk) added /\
    List.length added <= flag (onAudibleChunk_armed m).
Proof.
  induction cs as [|c cs IH]; intros m m' outs H; simpl in H.
  - injection H as <- _. split; [reflexivity|]. exists []. rewrite app_nil_r.
    split; [reflexivity|split; [constructor|simpl; lia]].
  - destruct (read_improviser now m c) as [[m1 out]|] eqn:R; [|discriminate].
    destruct (read_many now m1 cs) as [[m2 outs2]|] eqn:R2; [|discriminate].
    injection H as <- _.
    destruct (IH m1 m2 outs2 R2) as (Hm2 & added & Hq2 & Ha2 & Hl2).
    destruct (read_improviser_queue now m m1 c out R) as (Hm1 & [[Hq1 Hr1]|(Hr & Hr1 & Hq1)]).
    + split; [congruence|]. exists added. rewrite Hq2, Hq1, <- Hr1.
      split; [reflexivity|split; assumption].
    + split; [congruence|]. exists (FirstAudibleChunk :: added).
      rewrite Hq2, Hq1, <- app_assoc. split; [reflexivity|].
      rewrite Hr1 in Hl2. unfold flag in *. rewrite Hr.
      split; [constructor; [reflexivity|assumption]|simpl; lia].
Qed.

Lemma reads_fire_at_most_once_witness :
  read_many 9%Z armed_unmuted [loud_chunk; loud_chunk] =
    Some (fired_unmuted,
          [loud_chunk; loud_chunk]) /\
  muted fired_unmuted =
    muted armed_unmuted /\
  exists added,
    queue fired_unmuted =
      queue armed_unmuted ++ added /\
    Forall (fun e => e = FirstAudibleChunk) added /\
    List.length added <= flag (onAudibleChunk_armed armed_unmuted).
Proof.
  split; [reflexivity|].
  apply (reads_fire_at_most_once 9%Z [loud_chunk; loud_chunk] armed_unmuted
           fired_unmuted
           [loud_chunk; loud_chunk]).
  reflexivity.
Defined.

(** X15: while [muted] is unset, reading chunks that each hold a whole
    number of 16-bit samples returns every chunk unchanged. *)
Theorem unmuted_reads_pass_through (now : Z) (cs : list chunk) :
  forall m,
  muted m = false ->
  Forall (fun c => Nat.even (List.length (buffer c)) = true) cs ->
  exists m', read_many now m cs = Some (m', cs).
Proof.
  induction cs as [|c cs IH]; intros m Hm He; simpl.
  - exists m. reflexivity.
  - inversion He as [|? ? Hc Hcs]; subst.
    unfold read_improviser, averageAmplitude.
    destruct (int16_view_even (buffer c) Hc) as [l Hl]. rewrite Hl. cbn [option_map].
    match goal with |- context [if amplitude_gt ?a 150 then _ else _] =>
      destruct (amplitude_gt a 150) end.
    + assert (Hm1 : muted (fire_onAudibleChunk m) = false).
      { unfold fire_onAudibleChunk. destruct (onAudibleChunk_armed m); exact Hm. }
      rewrite Hm1. destruct (IH _ Hm1 Hcs) as [m' H']. rewrite H'. eexists. reflexivity.
    + rewrite Hm. destruct (IH _ Hm Hcs) as [m' H']. rewrite H'. eexists. reflexivity.
Qed.

Lemma unmuted_reads_pass_through_witness :
  (muted armed_unmuted = false /\
   Forall (fun c => Nat.even (List.length (buffer c)) = true) [loud_chunk; loud_chunk]) /\
  exists m', read_many 9%Z armed_unmuted [loud_chunk; loud_chunk] =
             Some (m', [loud_chunk; loud_chunk]).
Proof.
  split; [split; [reflexivity|repeat constructor]|].
  apply unmuted_reads_pass_through; [reflexivity|repeat constructor].
Defined.

End AudioExtras.
